(** * The SQL safety layer of the natural-language-to-SQL service (src/main.py)

    A shallow embedding of [sanitize_sql] and of the code-fence clean-up of
    [llm_generate_sql], with the part of Python's [re] and [str] they use.

    Python strings are sequences of Unicode code points: a character is a
    code point in [N], a string a list of them.  Regular expressions are
    given as the syntax trees [re] compiles the program's patterns to, and
    matched by a backtracking matcher in continuation-passing style, which
    tries alternatives and repetitions in the order [re] does. *)

From Stdlib Require Import List NArith Bool Ascii String Lia PeanoNat.
Import ListNotations.

Set Implicit Arguments.

(* ================================================================= *)
(** ** Characters and strings *)

Definition char := N.
Definition pystr := list char.

(** A Rocq string literal read as a Python string (one code point per
    character of the literal). *)
Definition py (s : string) : pystr := map N_of_ascii (list_ascii_of_string s).

Definition dquote : char := 34%N.
Definition newline : char := 10%N.
Definition semicolon : char := 59%N.
Definition backtick : char := 96%N.

Fixpoint str_eqb (a b : pystr) : bool :=
  match a, b with
  | [], [] => true
  | x :: a', y :: b' => (x =? y)%N && str_eqb a' b'
  | _, _ => false
  end.

(** [quoted "vendorId"] is the Python literal ['"vendorId"']. *)
Definition quoted (s : string) : pystr := dquote :: py s ++ [dquote].

Definition in_range (lo hi c : char) : bool := ((lo <=? c) && (c <=? hi))%N.
Arguments in_range (lo hi c)%_N_scope.

Definition is_ascii (c : char) : bool := (c <? 128)%N.

(** [A-Za-z0-9_], the ASCII part of [\w]. *)
Definition ascii_word (c : char) : bool :=
  in_range 48 57 c || in_range 65 90 c || in_range 97 122 c || (c =? 95)%N.

(** [str.isspace] of a single code point: the characters [str.strip()]
    removes. *)
Definition isspace (c : char) : bool :=
  in_range 9 13 c || in_range 28 32 c
  || (c =? 0x85)%N || (c =? 0xA0)%N || (c =? 0x1680)%N
  || in_range 0x2000 0x200A c
  || (c =? 0x2028)%N || (c =? 0x2029)%N || (c =? 0x202F)%N
  || (c =? 0x205F)%N || (c =? 0x3000)%N.

(** The four code points outside ASCII that the IGNORECASE flag identifies
    with an ASCII letter: U+0130, U+0131 (with i), U+017F (with s) and
    U+212A (with k). *)
Definition fold_extras : list char := [0x130; 0x131; 0x17F; 0x212A]%N.

(** The Unicode character database is the interpreter's, not the
    program's.  What [\w] needs of it beyond ASCII is the set of
    alphanumeric code points, taken here as a parameter together with the
    two facts about it that the proofs use. *)
Class UnicodeDB := {
  uni_alnum : char -> bool;
  uni_alnum_space : forall c, isspace c = true -> uni_alnum c = false;
  uni_alnum_fold : forall c, In c fold_extras -> uni_alnum c = true
}.

(** [\w] on [str] patterns: alphanumeric or underscore. *)
Definition is_word `{UnicodeDB} (c : char) : bool :=
  if is_ascii c then ascii_word c else uni_alnum c.

(** *** [str.strip] and [str.rstrip] *)

Fixpoint lstrip_by (p : char -> bool) (s : pystr) : pystr :=
  match s with
  | c :: t => if p c then lstrip_by p t else s
  | [] => []
  end.

Definition rstrip_by (p : char -> bool) (s : pystr) : pystr :=
  rev (lstrip_by p (rev s)).

(** [s.strip()] *)
Definition strip (s : pystr) : pystr := rstrip_by isspace (lstrip_by isspace s).

(** [s.rstrip(chars)] *)
Definition rstrip (chars : pystr) (s : pystr) : pystr :=
  rstrip_by (fun c => existsb (N.eqb c) chars) s.

(* ================================================================= *)
(** ** Regular expressions *)

(** Lower case of a code point, as far as it can reach an ASCII letter:
    the upper-case ASCII letters, U+0130 and U+212A.  ([_sre.unicode_tolower]
    sends every other code point outside ASCII to a code point outside
    ASCII; the program's patterns hold ASCII letters only.) *)
Definition lower (c : char) : char :=
  if in_range 65 90 c then (c + 32)%N
  else if (c =? 0x130)%N then 105%N
  else if (c =? 0x212A)%N then 107%N
  else c.

(** The extra code points [re] adds for a lower-case letter under
    IGNORECASE (its table of equivalences): dotless i for i, long s for s. *)
Definition ign_fixes (lo : char) : list char :=
  if (lo =? 105)%N then [0x131%N]
  else if (lo =? 115)%N then [0x17F%N]
  else [].

(** A literal [p] of a pattern compiled with [re.I] against the character
    [c] of the subject. *)
Definition lit_ignore (p c : char) : bool :=
  let lo := lower p in
  existsb (N.eqb (lower c)) (lo :: ign_fixes lo).

Inductive atom : Type :=
| Lit (c : char)                      (* a literal, no flags *)
| LitI (c : char)                     (* a literal under re.I *)
| InSet (ranges : list (char * char)) (* [a-zA-Z], no flags *).

Definition atom_ok (a : atom) (c : char) : bool :=
  match a with
  | Lit p => (c =? p)%N
  | LitI p => lit_ignore p c
  | InSet rs => existsb (fun r => in_range (fst r) (snd r) c) rs
  end.

Inductive regex : Type :=
| Eps
| Atom (a : atom)
| Seq (r1 r2 : regex)
| Alt (r1 r2 : regex)
| Star (a : atom)        (* greedy repetition of a one-character item *)
| WordB                  (* \b *)
| Bol                    (* ^ , no MULTILINE *)
| Eol                    (* $ , no MULTILINE *).

Section Matcher.
Context `{UnicodeDB}.

Definition word_opt (c : option char) : bool :=
  match c with Some x => is_word x | None => false end.

(** [\b] between the character [prev] before the position and the rest [s]
    of the subject from the position on. *)
Definition at_boundary (prev : option char) (s : pystr) : bool :=
  xorb (word_opt prev) (word_opt (hd_error s)).

(** [$]: at the end, or before a newline that ends the subject. *)
Definition at_end (s : pystr) : bool :=
  match s with
  | [] => true
  | [c] => (c =? newline)%N
  | _ => false
  end.

Definition cont := option char -> pystr -> option pystr.

(** Greedy star of an atom: take one more character first, give it back
    when the rest of the pattern fails. *)
Fixpoint star_match (a : atom) (prev : option char) (s : pystr) (k : cont)
  : option pystr :=
  match s with
  | c :: t =>
      if atom_ok a c then
        match star_match a (Some c) t k with
        | Some r => Some r
        | None => k prev s
        end
      else k prev s
  | [] => k prev s
  end.

(** [rmatch r prev s k]: match [r] at the position whose previous
    character is [prev] and whose rest is [s], then continue with [k];
    the result is the rest of the subject after the whole match. *)
Fixpoint rmatch (r : regex) (prev : option char) (s : pystr) (k : cont)
  : option pystr :=
  match r with
  | Eps => k prev s
  | Atom a =>
      match s with
      | c :: t => if atom_ok a c then k (Some c) t else None
      | [] => None
      end
  | Seq r1 r2 => rmatch r1 prev s (fun p' s' => rmatch r2 p' s' k)
  | Alt r1 r2 =>
      match rmatch r1 prev s k with
      | Some x => Some x
      | None => rmatch r2 prev s k
      end
  | Star a => star_match a prev s k
  | WordB => if at_boundary prev s then k prev s else None
  | Bol => match prev with None => k prev s | Some _ => None end
  | Eol => if at_end s then k prev s else None
  end.

(** The match of [r] at a position, if any: the rest after it. *)
Definition match_here (r : regex) (prev : option char) (s : pystr)
  : option pystr :=
  rmatch r prev s (fun _ rest => Some rest).

(** [re.search]: the leftmost position with a match. *)
Fixpoint search_from (r : regex) (prev : option char) (s : pystr) : bool :=
  match match_here r prev s with
  | Some _ => true
  | None =>
      match s with
      | [] => false
      | c :: t => search_from r (Some c) t
      end
  end.

Definition re_search (r : regex) (s : pystr) : bool := search_from r None s.

(** [re.sub] with a plain replacement string: the leftmost matches that do
    not overlap are replaced, the rest is copied.  [skip] counts the
    characters of the current match still to pass over.  (Where a pattern
    matches the empty string the replacement is put in and the scan moves
    on by one character; no pattern of the program matches the empty
    string.) *)
Fixpoint sub_from (r : regex) (repl : pystr) (prev : option char)
  (s : pystr) (skip : nat) {struct s} : pystr :=
  match skip with
  | S n =>
      match s with
      | [] => []
      | c :: t => sub_from r repl (Some c) t n
      end
  | O =>
      match match_here r prev s with
      | Some rest =>
          match s with
          | [] => repl
          | c :: t =>
              match List.length s - List.length rest with
              | O => repl ++ c :: sub_from r repl (Some c) t 0
              | S n => repl ++ sub_from r repl (Some c) t n
              end
          end
      | None =>
          match s with
          | [] => []
          | c :: t => c :: sub_from r repl (Some c) t 0
          end
      end
  end.

Definition re_sub (r : regex) (repl : pystr) (s : pystr) : pystr :=
  sub_from r repl None s 0.

End Matcher.

(** *** Building the syntax trees *)

Fixpoint seq_of (f : char -> atom) (s : pystr) : regex :=
  match s with
  | [] => Eps
  | c :: t => Seq (Atom (f c)) (seq_of f t)
  end.

(** A word of a pattern compiled with [re.I]. *)
Definition word_i (s : string) : regex := seq_of LitI (py s).

(** A word of a pattern compiled without flags. *)
Definition word_l (s : string) : regex := seq_of Lit (py s).

Fixpoint alts (rs : list regex) : regex :=
  match rs with
  | [] => Seq Bol (Atom (InSet []))   (* the empty alternation never matches *)
  | [r] => r
  | r :: rest => Alt r (alts rest)
  end.

(** [\b(w1|...|wn)\b] with [re.I]. *)
Definition keyword_re (ws : list string) : regex :=
  Seq WordB (Seq (alts (map word_i ws)) WordB).

(* ================================================================= *)
(** ** The program *)

Record HTTPException := { status_code : N; detail : pystr }.

Inductive result : Type :=
| Ok (sql : pystr)
| Raise (e : HTTPException).

(** [DANGEROUS = re.compile(r"\b(INSERT|...|REVOKE)\b", re.I)] *)
Definition DANGEROUS_words : list string :=
  ["INSERT"; "UPDATE"; "DELETE"; "DROP"; "ALTER"; "TRUNCATE"; "CREATE";
   "GRANT"; "REVOKE"]%string.

Definition DANGEROUS : regex := keyword_re DANGEROUS_words.

(** [r"\bSELECT\b"] and [r"\bLIMIT\b"], both used with [re.I]. *)
Definition SELECT_re : regex := keyword_re ["SELECT"%string].
Definition LIMIT_re : regex := keyword_re ["LIMIT"%string].

(** The dict [fixes], in insertion order (the order [fixes.items()]
    yields). *)
Definition fixes : list (string * string) :=
  [("vendorid", "vendorId"); ("invoiceid", "invoiceId");
   ("customerid", "customerId"); ("paymentid", "paymentId");
   ("totalamount", "totalAmount"); ("totalvalue", "totalValue");
   ("invoicedate", "invoiceDate")]%string.

Definition unsafe_error : HTTPException :=
  {| status_code := 400; detail := py "Unsafe SQL blocked. Only SELECT allowed." |}.

Definition invalid_error : HTTPException :=
  {| status_code := 400; detail := py "Only SELECT queries are allowed." |}.

(** *** The reply of the completion service *)

(** A JSON value as [r.json()] returns it, a dict as the list of its
    items. *)
#[warnings="-register-all"] Inductive json : Type :=
| JNull
| JBool (b : bool)
| JNum (literal : pystr)
| JStr (s : pystr)
| JArr (elements : list json)
| JObj (items : list (pystr * json)).

Fixpoint items_get (items : list (pystr * json)) (key : pystr) : option json :=
  match items with
  | [] => None
  | (k, v) :: rest => if str_eqb k key then Some v else items_get rest key
  end.

(** [v[key]] for a string [key]: the value of the key in a dict; on
    anything else, or without the key, it raises ([None]). *)
Definition json_key (key : pystr) (v : json) : option json :=
  match v with
  | JObj items => items_get items key
  | _ => None
  end.

(** [v[0]]: the first element of a list, the first character of a string;
    on anything else, and on an empty list or string, it raises. *)
Definition json_first (v : json) : option json :=
  match v with
  | JArr (x :: _) => Some x
  | JStr (c :: _) => Some (JStr [c])
  | _ => None
  end.

(** The receiver of [.strip()]: only a string has the method. *)
Definition json_text (v : json) : option pystr :=
  match v with
  | JStr text => Some text
  | _ => None
  end.

Definition and_then {A B : Type} (x : option A) (f : A -> option B) : option B :=
  match x with
  | Some a => f a
  | None => None
  end.

(** The reply [requests.post] returned: its status, the text of its body,
    and what [r.json()] makes of the body ([None] when it raises). *)
Record response := { r_status : N; r_text : pystr; r_json : option json }.

(** [r.json()["choices"][0]["message"]["content"]], as far as it is a
    string. *)
Definition message_content (r : response) : option pystr :=
  and_then (r_json r) (fun body =>
  and_then (json_key (py "choices") body) (fun choices =>
  and_then (json_first choices) (fun choice =>
  and_then (json_key (py "message") choice) (fun message =>
  and_then (json_key (py "content") message) json_text)))).

(** What [requests.post] does: it raises, or it returns a reply. *)
Inductive posted : Type :=
| PostRaised (msg : pystr)
| Replied (r : response).

(** An exception that is no [HTTPException]: [requests.post] raised, or
    the content could not be read out of the reply. *)
Inductive failure : Type :=
| PostFailed (msg : pystr)
| ReplyUnreadable.

(** What a call comes to. *)
Inductive outcome (A : Type) : Type :=
| Returned (a : A)
| RaisedHTTP (e : HTTPException)
| RaisedOther (f : failure).
Arguments Returned {A} a.
Arguments RaisedHTTP {A} e.
Arguments RaisedOther {A} f.

Section Program.
Context `{UnicodeDB}.

(** One turn of the loop: [sql = re.sub(bad, good, sql, flags=re.I)],
    where [good] is [bad]'s canonical spelling in double quotes. *)
Definition fix_step (sql : pystr) (fx : string * string) : pystr :=
  re_sub (word_i (fst fx)) (quoted (snd fx)) sql.

(** [for bad, good in fixes.items(): sql = re.sub(bad, good, sql, flags=re.I)] *)
Definition apply_fixes (sql : pystr) : pystr := fold_left fix_step fixes sql.

(** [if not re.search(r"\bLIMIT\b", sql, re.I):
       sql = sql.strip().rstrip(";") + " LIMIT 500"] *)
Definition add_limit (sql : pystr) : pystr :=
  if negb (re_search LIMIT_re sql)
  then rstrip [semicolon] (strip sql) ++ py " LIMIT 500"
  else sql.

Definition sanitize_sql (sql : pystr) : result :=
  if re_search DANGEROUS sql then Raise unsafe_error
  else if negb (re_search SELECT_re sql) then Raise invalid_error
  else Ok (add_limit (apply_fixes sql)).

(** The clean-up [llm_generate_sql] applies to the completion's text:
    [sql = content.strip()]
    [sql = re.sub(r"^```[a-zA-Z]*", "", sql).strip()]
    [sql = re.sub(r"```$", "", sql).strip()] *)
Definition FENCE_OPEN : regex :=
  Seq Bol (Seq (word_l "```") (Star (InSet [(97, 122); (65, 90)]%N))).

Definition FENCE_CLOSE : regex := Seq (word_l "```") Eol.

Definition strip_fences (content : pystr) : pystr :=
  let sql := strip content in
  let sql := strip (re_sub FENCE_OPEN [] sql) in
  strip (re_sub FENCE_CLOSE [] sql).

(** [llm_generate_sql]: the call of the completion service may raise; a
    reply of status 400 or more raises the HTTP 500; reading the content
    out of the reply may raise; the content read is cleaned of its
    fences. *)
Definition llm_generate_sql (p : posted) : outcome pystr :=
  match p with
  | PostRaised msg => RaisedOther (PostFailed msg)
  | Replied r =>
      if (400 <=? r_status r)%N
      then RaisedHTTP {| status_code := 500;
                         detail := py "Groq error: " ++ r_text r |}
      else match message_content r with
           | None => RaisedOther ReplyUnreadable
           | Some content => Returned (strip_fences content)
           end
  end.

End Program.

(* ================================================================= *)
(** ** Notions the statements use *)

(** The last character of a string: the character before the position at
    its end. *)
Fixpoint last_opt (s : pystr) : option char :=
  match s with
  | [] => None
  | [c] => Some c
  | _ :: t => last_opt t
  end.

(** The character before the position reached from one whose previous
    character is [p] by reading [w]. *)
Definition prev_after (p : option char) (w : pystr) : option char :=
  match last_opt w with Some c => Some c | None => p end.

(** [w] spells the word [kw] of a pattern compiled with [re.I]. *)
Fixpoint spells (kw w : pystr) : bool :=
  match kw, w with
  | [], [] => true
  | p :: kw', c :: w' => lit_ignore p c && spells kw' w'
  | _, _ => false
  end.

(** A spelling of [kw] starts [s]. *)
Fixpoint prefix_i (kw s : pystr) : bool :=
  match kw with
  | [] => true
  | p :: kw' =>
      match s with
      | c :: t => lit_ignore p c && prefix_i kw' t
      | [] => false
      end
  end.

(** A spelling of [kw] lies somewhere in [s], whatever is around it. *)
Definition spelled_in (kw s : pystr) : Prop :=
  exists a w b, s = a ++ w ++ b /\ spells kw w = true.

(** No spelling of [kw] starts in [pre], read with [rest] behind it. *)
Fixpoint none_starts_in (kw pre rest : pystr) : bool :=
  match pre with
  | [] => true
  | _ :: t => negb (prefix_i kw (pre ++ rest)) && none_starts_in kw t rest
  end.

(** [spelled_in], decided. *)
Fixpoint spelled_inb (kw s : pystr) : bool :=
  prefix_i kw s
  || match s with
     | [] => false
     | _ :: t => spelled_inb kw t
     end.

Definition ascii_letter (c : char) : bool := in_range 97 122 c || in_range 65 90 c.

Section Notions.
Context `{UnicodeDB}.

(** What a regular expression matches, between two positions of a subject:
    [matches r p s p' s'] when [r] matches from the position with previous
    character [p] and rest [s] to the position with previous character
    [p'] and rest [s']. *)
Inductive matches : regex -> option char -> pystr -> option char -> pystr -> Prop :=
| M_eps p s : matches Eps p s p s
| M_atom a p c t : atom_ok a c = true -> matches (Atom a) p (c :: t) (Some c) t
| M_seq r1 r2 p s p1 s1 p2 s2 :
    matches r1 p s p1 s1 -> matches r2 p1 s1 p2 s2 ->
    matches (Seq r1 r2) p s p2 s2
| M_alt_l r1 r2 p s p' s' : matches r1 p s p' s' -> matches (Alt r1 r2) p s p' s'
| M_alt_r r1 r2 p s p' s' : matches r2 p s p' s' -> matches (Alt r1 r2) p s p' s'
| M_star_stop a p s : matches (Star a) p s p s
| M_star_more a p c t p' s' :
    atom_ok a c = true -> matches (Star a) (Some c) t p' s' ->
    matches (Star a) p (c :: t) p' s'
| M_wordb p s : at_boundary p s = true -> matches WordB p s p s
| M_bol s : matches Bol None s None s
| M_eol p s : at_end s = true -> matches Eol p s p s.

Definition non_word (c : char) : bool := negb (is_word c).

(** [w], standing between [pre] and [post], is an occurrence of the
    keyword [kw] in any casing with a word boundary on either side. *)
Definition occurrence (kw : string) (pre w post : pystr) : Prop :=
  spells (py kw) w = true
  /\ at_boundary (last_opt pre) (w ++ post) = true
  /\ at_boundary (last_opt (pre ++ w)) post = true.

(** [s] holds an occurrence of one of the keywords [kws]. *)
Definition has_keyword (kws : list string) (s : pystr) : Prop :=
  exists kw pre w post,
    In kw kws /\ s = pre ++ w ++ post /\ occurrence kw pre w post.

(** [s] holds exactly one occurrence of the keyword, the one at
    [pre], [w], [post]. *)
Definition only_occurrence (kw : string) (s pre w post : pystr) : Prop :=
  s = pre ++ w ++ post /\ occurrence kw pre w post
  /\ forall pre' w' post',
       s = pre' ++ w' ++ post' -> occurrence kw pre' w' post' ->
       pre' = pre /\ w' = w /\ post' = post.

End Notions.

(** None of the keys of [fixes] is spelled in [s]. *)
Definition no_fix_key (s : pystr) : bool :=
  forallb (fun fx => negb (spelled_inb (py (fst fx)) s)) fixes.

(** The conditions under which a list of fixes leaves a word [w] alone:
    each key is made of letters and is longer than [w]. *)
Definition fixes_spare (w : pystr) (fxs : list (string * string)) : Prop :=
  Forall (fun fx => forallb ascii_letter (py (fst fx)) = true
                    /\ List.length w < List.length (py (fst fx))) fxs.

(** The replacement of the spellings of a word, read off [sub_from] for a
    pattern that is one word under [re.I]: no position, no continuation. *)
Fixpoint subst_i (kw repl s : pystr) (skip : nat) {struct s} : pystr :=
  match skip with
  | S n =>
      match s with
      | [] => []
      | c :: t => subst_i kw repl t n
      end
  | O =>
      match s with
      | [] => if prefix_i kw [] then repl else []
      | c :: t =>
          if prefix_i kw s then
            match List.length kw with
            | O => repl ++ c :: subst_i kw repl t 0
            | S n => repl ++ subst_i kw repl t n
            end
          else c :: subst_i kw repl t 0
      end
  end.

(** A table for closed examples: the alphanumeric code points of Latin-1
    and Latin Extended-A, and the Kelvin sign. *)
Definition latin_alnum (c : char) : bool :=
  (c =? 0xAA)%N || (c =? 0xB5)%N || (c =? 0xBA)%N
  || in_range 0xB2 0xB3 c || (c =? 0xB9)%N || in_range 0xBC 0xBE c
  || in_range 0xC0 0xD6 c || in_range 0xD8 0xF6 c || in_range 0xF8 0x17F c
  || (c =? 0x212A)%N.

Definition latin_db : UnicodeDB.
Proof.
  refine {| uni_alnum := latin_alnum |}.
  - unfold isspace, latin_alnum, in_range. intros c Hs.
    repeat rewrite ?orb_true_iff, ?andb_true_iff, ?N.leb_le, ?N.eqb_eq in Hs.
    repeat rewrite ?orb_false_iff, ?andb_false_iff, ?N.leb_gt, ?N.eqb_neq.
    lia.
  - simpl. intros c [<-|[<-|[<-|[<-|[]]]]]; reflexivity.
Defined.

(* ================================================================= *)
(** ** The rest of the program *)

(** Keywords made of ASCII letters, none empty: such are the keywords the
    program looks for. *)
Definition plain_keywords (kws : list string) : bool :=
  forallb (fun kw => forallb ascii_letter (py kw)
                     && negb (Nat.eqb (List.length (py kw)) 0)) kws.

(** The text without its double quotes. *)
Definition unquote (s : pystr) : pystr :=
  filter (fun c => negb (c =? dquote)%N) s.

(** The lower-case ASCII letter a character spells under [re.I], any
    other character being left as it is. *)
Definition case_fold (c : char) : char :=
  let l := lower c in
  if (l =? 0x131)%N then 105%N else if (l =? 0x17F)%N then 115%N else l.

(** *** [snapshot_schema] *)

(** A row of [information_schema.columns] as the query selects it. *)
Record column := { table_name : pystr; column_name : pystr; data_type : pystr }.

(** [tables.setdefault(k, []).append(v)], the dict kept as the list of its
    items in insertion order. *)
Fixpoint setdefault_append (tables : list (pystr * list pystr)) (k v : pystr)
  : list (pystr * list pystr) :=
  match tables with
  | [] => [(k, [v])]
  | (k', vs) :: rest =>
      if str_eqb k' k then (k', vs ++ [v]) :: rest
      else (k', vs) :: setdefault_append rest k v
  end.

(** [f'{r["column_name"]} {r["data_type"]}'] *)
Definition column_text (r : column) : pystr :=
  column_name r ++ py " " ++ data_type r.

(** The loop over [rows] that fills [tables]. *)
Definition group_columns (rows : list column) : list (pystr * list pystr) :=
  fold_left (fun tables r => setdefault_append tables (table_name r) (column_text r))
            rows [].

(** [sep.join(parts)] *)
Fixpoint join (sep : pystr) (parts : list pystr) : pystr :=
  match parts with
  | [] => []
  | [x] => x
  | x :: rest => x ++ sep ++ join sep rest
  end.

(** [f'{t}({", ".join(cols)})'] *)
Definition render_table (item : pystr * list pystr) : pystr :=
  fst item ++ py "(" ++ join (py ", ") (snd item) ++ py ")".

(** [snapshot_schema], from the rows the query returned on. *)
Definition snapshot_schema (rows : list column) : pystr :=
  join [newline] (map render_table (group_columns rows)).

(** The names of a list in the order of their first appearance. *)
Fixpoint first_seen (names : list pystr) : list pystr :=
  match names with
  | [] => []
  | x :: t => x :: filter (fun y => negb (str_eqb y x)) (first_seen t)
  end.

(** The column texts of the table [t], in the order of the rows. *)
Definition columns_of (rows : list column) (t : pystr) : list pystr :=
  map column_text (filter (fun r => str_eqb (table_name r) t) rows).

(** *** The endpoint [nlq] *)

(** What the database driver does with a statement: it raises, or it runs
    the statement; [description] holds the names of the result's columns
    (none when the statement gave no result set) and [fetched] the rows
    [fetchall] would give. *)
Inductive db_reply (row : Type) : Type :=
| DbError (msg : pystr)
| DbResult (description : list pystr) (fetched : list row).
Arguments DbError {row} msg.
Arguments DbResult {row} description fetched.

(** The database as [nlq] meets it: [db_connect] is the message of the
    exception [psycopg.connect] raises, if it raises; [db_execute] answers
    a statement on a connection that has run [history]; [db_commit] is the
    message of the exception raised on leaving the [with] block of the
    connection, if one is raised there. *)
Record database (row : Type) : Type := {
  db_connect : option pystr;
  db_execute : list pystr -> pystr -> db_reply row;
  db_commit : list pystr -> option pystr
}.

(** What [nlq] does that can be seen from outside, in order. *)
Inductive event : Type :=
| Printed (text : pystr)
| Executed (statement : pystr).

(** The dict [nlq] returns. *)
Record answer (row : Type) : Type := {
  a_question : pystr;
  a_sql : pystr;
  a_columns : list pystr;
  a_rows : list row
}.

Definition READ_ONLY : pystr := py "SET TRANSACTION READ ONLY;".

(** [HTTPException(status_code=400, detail=f"SQL error: {str(e)}")] *)
Definition sql_error (msg : pystr) : HTTPException :=
  {| status_code := 400; detail := py "SQL error: " ++ msg |}.

(** [print("... Generated SQL:", sql)]; the first character is U+1F9E0. *)
Definition generated_line (sql : pystr) : pystr :=
  [0x1F9E0%N] ++ py " Generated SQL:" ++ py " " ++ sql.

Fixpoint executed (trace : list event) : list pystr :=
  match trace with
  | [] => []
  | Executed stmt :: t => stmt :: executed t
  | Printed _ :: t => executed t
  end.

Section Endpoint.
Context `{UnicodeDB}.
Variable row : Type.

(** [nlq], with the completion service and the database as it finds them:
    what the call comes to (the dict returned, the [HTTPException] raised,
    or the exception of [llm_generate_sql], which [nlq] does not catch)
    and the trace of what it printed and executed. *)
Definition nlq (llm : pystr -> posted) (db : database row) (question : pystr)
  : outcome (answer row) * list event :=
  match llm_generate_sql (llm question) with
  | RaisedOther f => (RaisedOther f, [])
  | RaisedHTTP e => (RaisedHTTP e, [])
  | Returned generated =>
      let trace := [Printed (generated_line generated)] in
      match sanitize_sql generated with
      | Raise e => (RaisedHTTP e, trace)
      | Ok sql =>
          match db_connect db with
          | Some msg => (RaisedHTTP (sql_error msg), trace)
          | None =>
              match db_execute db [] READ_ONLY with
              | DbError msg =>
                  (RaisedHTTP (sql_error msg), trace ++ [Executed READ_ONLY])
              | DbResult _ _ =>
                  let trace := trace ++ [Executed READ_ONLY; Executed sql] in
                  match db_execute db [READ_ONLY] sql with
                  | DbError msg => (RaisedHTTP (sql_error msg), trace)
                  | DbResult description fetched =>
                      match db_commit db [READ_ONLY; sql] with
                      | Some msg => (RaisedHTTP (sql_error msg), trace)
                      | None =>
                          (Returned {| a_question := question;
                                       a_sql := sql;
                                       a_columns := description;
                                       a_rows := match description with
                                                 | [] => []
                                                 | _ :: _ => fetched
                                                 end |},
                           trace)
                      end
                  end
              end
          end
      end
  end.

End Endpoint.

(* ================================================================= *)
(** ** The matcher *)

Section MatcherFacts.
Context `{UnicodeDB}.

Lemma star_match_sound a : forall s p k x,
  star_match a p s k = Some x ->
  exists p' s', matches (Star a) p s p' s' /\ k p' s' = Some x.
Proof.
  induction s as [|c t IH]; intros p k x Hm; simpl in Hm.
  - exists p, []. split; [constructor | exact Hm].
  - destruct (atom_ok a c) eqn:Hc.
    + destruct (star_match a (Some c) t k) eqn:Hrec.
      * injection Hm as <-. apply IH in Hrec as (p' & s' & Hs & Hk).
        exists p', s'. split; [now apply M_star_more | exact Hk].
      * exists p, (c :: t). split; [constructor | exact Hm].
    + exists p, (c :: t). split; [constructor | exact Hm].
Qed.

Lemma rmatch_sound r : forall p s k x,
  rmatch r p s k = Some x ->
  exists p' s', matches r p s p' s' /\ k p' s' = Some x.
Proof.
  induction r as [|a|r1 IH1 r2 IH2|r1 IH1 r2 IH2|a| | |]; intros p s k x Hm; simpl in Hm.
  - exists p, s. split; [constructor | exact Hm].
  - destruct s as [|c t]; [discriminate|].
    destruct (atom_ok a c) eqn:Hc; [|discriminate].
    exists (Some c), t. split; [now constructor | exact Hm].
  - apply IH1 in Hm as (p1 & s1 & H1 & Hm).
    apply IH2 in Hm as (p2 & s2 & H2 & Hk).
    exists p2, s2. split; [econstructor; eassumption | exact Hk].
  - destruct (rmatch r1 p s k) eqn:Hl.
    + injection Hm as <-. apply IH1 in Hl as (p' & s' & H1 & Hk).
      exists p', s'. split; [now apply M_alt_l | exact Hk].
    + apply IH2 in Hm as (p' & s' & H2 & Hk).
      exists p', s'. split; [now apply M_alt_r | exact Hk].
  - now apply star_match_sound.
  - destruct (at_boundary p s) eqn:Hb; [|discriminate].
    exists p, s. split; [now constructor | exact Hm].
  - destruct p; [discriminate|].
    exists None, s. split; [constructor | exact Hm].
  - destruct (at_end s) eqn:He; [|discriminate].
    exists p, s. split; [now constructor | exact Hm].
Qed.

Lemma rmatch_complete r p s p' s' :
  matches r p s p' s' ->
  forall k, k p' s' <> None -> rmatch r p s k <> None.
Proof.
  induction 1 as [p s|a p c t Hc|r1 r2 p s p1 s1 p2 s2 _ IH1 _ IH2
                  |r1 r2 p s p' s' _ IH|r1 r2 p s p' s' _ IH
                  |a p s|a p c t p' s' Hc _ IH|p s Hb|s|p s He];
    intros k Hk; simpl.
  - exact Hk.
  - now rewrite Hc.
  - apply IH1. now apply IH2.
  - destruct (rmatch r1 p s k) eqn:Hl; [discriminate|].
    exfalso. now apply (IH k).
  - destruct (rmatch r1 p s k); [discriminate|]. now apply IH.
  - destruct s as [|c t]; simpl; [exact Hk|].
    destruct (atom_ok a c); [|exact Hk].
    destruct (star_match a (Some c) t k); [discriminate | exact Hk].
  - rewrite Hc.
    destruct (star_match a (Some c) t k) eqn:Hrec; [discriminate|].
    exfalso. now apply (IH k).
  - now rewrite Hb.
  - exact Hk.
  - now rewrite He.
Qed.

Lemma match_here_none r p s :
  match_here r p s = None <-> forall p' s', ~ matches r p s p' s'.
Proof.
  unfold match_here. split.
  - intros Hn p' s' Hm.
    apply (rmatch_complete Hm (fun _ rest => Some rest)); [discriminate | exact Hn].
  - intros Hno. destruct (rmatch r p s _) eqn:Hm; [|reflexivity].
    apply rmatch_sound in Hm as (p' & s' & Hm & _). now apply Hno in Hm.
Qed.

End MatcherFacts.

(** *** Positions *)

Lemma last_opt_cons c d t : last_opt (c :: d :: t) = last_opt (d :: t).
Proof. reflexivity. Qed.

Lemma last_opt_app_cons a c b : last_opt (a ++ c :: b) = last_opt (c :: b).
Proof.
  induction a as [|x a IH]; [reflexivity|].
  destruct a as [|y a]; [reflexivity|]. exact IH.
Qed.

Lemma last_opt_snoc a c : last_opt (a ++ [c]) = Some c.
Proof. now rewrite last_opt_app_cons. Qed.

Lemma last_opt_app a b : last_opt (a ++ b) = prev_after (last_opt a) b.
Proof.
  unfold prev_after. destruct b as [|c b].
  - now rewrite app_nil_r; destruct (last_opt a).
  - rewrite last_opt_app_cons. destruct (last_opt (c :: b)) eqn:E; [reflexivity|].
    exfalso. revert c E. induction b as [|d b IH]; intros c E; [discriminate|].
    now apply (IH d).
Qed.

Lemma prev_after_None a : prev_after None a = last_opt a.
Proof. unfold prev_after. now destruct (last_opt a). Qed.

Lemma prev_after_nil p : prev_after p [] = p.
Proof. reflexivity. Qed.

Lemma prev_after_cons p c w : prev_after p (c :: w) = prev_after (Some c) w.
Proof.
  unfold prev_after. destruct w as [|d w]; [reflexivity|].
  rewrite last_opt_cons. destruct (last_opt (d :: w)) eqn:E; [reflexivity|].
  exfalso. revert d E. induction w as [|e w IH]; intros d E; [discriminate|].
  now apply (IH e).
Qed.

Lemma prev_after_app p a b : prev_after p (a ++ b) = prev_after (prev_after p a) b.
Proof.
  revert p. induction a as [|c a IH]; intros p; [reflexivity|].
  simpl app. now rewrite !prev_after_cons, IH.
Qed.

Section SearchFacts.
Context `{UnicodeDB}.

(** [re.search] finds a match exactly when some position has one. *)
Lemma search_from_iff r : forall s p,
  search_from r p s = true <->
  exists a b p' s', s = a ++ b /\ matches r (prev_after p a) b p' s'.
Proof.
  induction s as [|c t IH]; intros p; simpl.
  - destruct (match_here r p []) eqn:Hm.
    + split; [intros _|reflexivity].
      apply rmatch_sound in Hm as (p' & s' & Hm & _).
      now exists [], [], p', s'.
    + split; [discriminate|]. intros (a & b & p' & s' & Hs & Hmt).
      symmetry in Hs. apply app_eq_nil in Hs as [-> ->].
      now apply match_here_none in Hmt.
  - destruct (match_here r p (c :: t)) eqn:Hm.
    + split; [intros _|reflexivity].
      apply rmatch_sound in Hm as (p' & s' & Hm & _).
      now exists [], (c :: t), p', s'.
    + rewrite IH. split.
      * intros (a & b & p' & s' & -> & Hmt).
        exists (c :: a), b, p', s'. now rewrite prev_after_cons.
      * intros (a & b & p' & s' & Hs & Hmt). destruct a as [|d a].
        -- simpl in Hs. subst b. now apply match_here_none in Hmt.
        -- injection Hs as <- ->. rewrite prev_after_cons in Hmt.
           now exists a, b, p', s'.
Qed.

Lemma spells_nil_l w : spells [] w = true <-> w = [].
Proof. destruct w; simpl; split; congruence. Qed.

Lemma spells_length kw : forall w, spells kw w = true -> List.length w = List.length kw.
Proof.
  induction kw as [|q kw IH]; intros [|c w] Hs; simpl in *; try congruence.
  apply andb_true_iff in Hs as [_ Hs]. now rewrite (IH w Hs).
Qed.

(** A word under [re.I] matches its spellings. *)
Lemma matches_word kw : forall p s p' s',
  matches (seq_of LitI kw) p s p' s' <->
  exists w, s = w ++ s' /\ spells kw w = true /\ p' = prev_after p w.
Proof.
  induction kw as [|q kw IH]; intros p s p' s'; simpl.
  - split.
    + intros Hm. inversion Hm; subst. now exists [].
    + intros (w & -> & Hw & ->). apply spells_nil_l in Hw as ->. constructor.
  - split.
    + intros Hm. inversion Hm as [| |? ? ? ? p1 s1 ? ? H1 H2| | | | | | |]; subst.
      inversion H1; subst.
      apply IH in H2 as (w & -> & Hw & ->).
      exists (c :: w). simpl. rewrite prev_after_cons.
      repeat split. simpl in *. now rewrite Hw, andb_true_r.
    + intros (w & -> & Hw & ->). destruct w as [|c w]; [discriminate|].
      simpl in Hw. apply andb_true_iff in Hw as [Hc Hw].
      apply M_seq with (p1 := Some c) (s1 := w ++ s').
      * now constructor.
      * apply IH. exists w. now rewrite prev_after_cons.
Qed.

Lemma matches_alts rs p s p' s' :
  matches (alts rs) p s p' s' <-> exists r, In r rs /\ matches r p s p' s'.
Proof.
  induction rs as [|r rs IH].
  - simpl. split.
    + intros Hm. inversion Hm as [| |? ? ? ? p1 s1 ? ? H1 H2| | | | | | |]; subst.
      inversion H2; subst. discriminate.
    + now intros (r & [] & _).
  - destruct rs as [|r2 rs].
    + simpl. split.
      * intros Hm. exists r. now split; [left|].
      * now intros (r' & [<-|[]] & Hm).
    + change (alts (r :: r2 :: rs)) with (Alt r (alts (r2 :: rs))). split.
      * intros Hm. inversion Hm; subst.
        -- exists r. now split; [left|].
        -- apply IH in H6 as (r' & Hin & Hr'). exists r'. now split; [right|].
      * intros (r' & [<-|Hin] & Hm).
        -- now apply M_alt_l.
        -- apply M_alt_r, IH. now exists r'.
Qed.

Lemma matches_keyword ws p s p' s' :
  matches (keyword_re ws) p s p' s' <->
  exists kw w, In kw ws /\ s = w ++ s' /\ spells (py kw) w = true
               /\ at_boundary p s = true
               /\ at_boundary (prev_after p w) s' = true
               /\ p' = prev_after p w.
Proof.
  unfold keyword_re. split.
  - intros Hm. inversion Hm as [| |? ? ? ? p1 s1 ? ? H1 H2| | | | | | |]; subst.
    inversion H1; subst.
    inversion H2 as [| |? ? ? ? p2 s2 ? ? H3 H4| | | | | | |]; subst.
    inversion H4; subst.
    apply matches_alts in H3 as (r & Hin & Hr).
    apply in_map_iff in Hin as (kw & <- & Hin).
    apply matches_word in Hr as (w & -> & Hw & ->).
    now exists kw, w.
  - intros (kw & w & Hin & -> & Hw & Hb1 & Hb2 & ->).
    eapply M_seq; [now constructor|].
    eapply M_seq; [|now constructor].
    apply matches_alts. exists (word_i kw). split.
    + apply in_map_iff. now exists kw.
    + apply matches_word. now exists w.
Qed.

(** [re.search] with a pattern [\b(w1|...|wn)\b] under [re.I] decides
    whether the subject holds an occurrence of one of the words. *)
Lemma re_search_keyword ws s :
  re_search (keyword_re ws) s = true <-> has_keyword ws s.
Proof.
  unfold re_search, has_keyword, occurrence. rewrite search_from_iff. split.
  - intros (a & b & p' & s' & -> & Hm).
    apply matches_keyword in Hm as (kw & w & Hin & -> & Hw & Hb1 & Hb2 & _).
    exists kw, a, w, s'. rewrite last_opt_app.
    rewrite prev_after_None in Hb1, Hb2. now repeat split.
  - intros (kw & pre & w & post & Hin & -> & Hw & Hb1 & Hb2).
    exists pre, (w ++ post), (prev_after (prev_after None pre) w), post. split; [reflexivity|].
    apply matches_keyword. exists kw, w.
    rewrite last_opt_app in Hb2. rewrite prev_after_None.
    now repeat split.
Qed.

Lemma re_search_keyword_false ws s :
  re_search (keyword_re ws) s = false <-> ~ has_keyword ws s.
Proof.
  rewrite <- re_search_keyword. now destruct (re_search (keyword_re ws) s).
Qed.

End SearchFacts.

(* ================================================================= *)
(** ** Stripping *)

Lemma lstrip_by_split p s :
  exists l, s = l ++ lstrip_by p s /\ forallb p l = true.
Proof.
  induction s as [|c t (l & Hl & Hp)]; simpl.
  - now exists [].
  - destruct (p c) eqn:Hc.
    + exists (c :: l). simpl. now rewrite Hc, Hp, <- Hl.
    + now exists [].
Qed.

Lemma lstrip_by_head p s c : hd_error (lstrip_by p s) = Some c -> p c = false.
Proof.
  induction s as [|d t IH]; simpl; [discriminate|].
  destruct (p d) eqn:Hd; [exact IH|]. simpl. now intros [= <-].
Qed.

Lemma forallb_rev (p : char -> bool) l : forallb p (rev l) = forallb p l.
Proof.
  induction l as [|c l IH]; [reflexivity|].
  simpl. rewrite forallb_app, IH. simpl. now rewrite andb_true_r, andb_comm.
Qed.

Lemma rstrip_by_split p s :
  exists r, s = rstrip_by p s ++ r /\ forallb p r = true.
Proof.
  unfold rstrip_by. destruct (lstrip_by_split p (rev s)) as (l & Hl & Hp).
  exists (rev l). rewrite forallb_rev. split; [|exact Hp].
  rewrite <- rev_app_distr, <- Hl. now rewrite rev_involutive.
Qed.

Lemma last_opt_rev s : last_opt (rev s) = hd_error s.
Proof.
  destruct s as [|c t]; [reflexivity|]. simpl. apply last_opt_snoc.
Qed.

Lemma hd_error_rev s : hd_error (rev s) = last_opt s.
Proof. now rewrite <- last_opt_rev, rev_involutive. Qed.

Lemma rstrip_by_last p s c : last_opt (rstrip_by p s) = Some c -> p c = false.
Proof. unfold rstrip_by. rewrite last_opt_rev. apply lstrip_by_head. Qed.

(** [strip] takes white space off both ends and nothing else. *)
Lemma strip_split s :
  exists l r, s = l ++ strip s ++ r
              /\ forallb isspace l = true /\ forallb isspace r = true.
Proof.
  unfold strip.
  destruct (lstrip_by_split isspace s) as (l & Hl & Hpl).
  destruct (rstrip_by_split isspace (lstrip_by isspace s)) as (r & Hr & Hpr).
  exists l, r. now rewrite <- Hr, <- Hl.
Qed.

Lemma strip_last s c : last_opt (strip s) = Some c -> isspace c = false.
Proof. apply rstrip_by_last. Qed.

(** [rstrip(";")] takes semicolons off the end and nothing else. *)
Lemma rstrip_semicolon_split s :
  exists n, s = rstrip [semicolon] s ++ repeat semicolon n.
Proof.
  destruct (rstrip_by_split (fun c => existsb (N.eqb c) [semicolon]) s) as (r & Hr & Hp).
  exists (List.length r). fold (rstrip [semicolon] s) in Hr.
  rewrite Hr at 1. f_equal.
  clear Hr. induction r as [|c r IH]; [reflexivity|].
  simpl in Hp. rewrite orb_false_r in Hp. apply andb_true_iff in Hp as [Hc Hp].
  apply N.eqb_eq in Hc as ->. simpl. now rewrite <- IH.
Qed.

Lemma rstrip_semicolon_last s c :
  last_opt (rstrip [semicolon] s) = Some c -> c <> semicolon.
Proof.
  intros Hl. apply rstrip_by_last in Hl. simpl in Hl.
  rewrite orb_false_r in Hl. now apply N.eqb_neq.
Qed.

Section WordFacts.
Context `{UnicodeDB}.

Lemma isspace_not_word c : isspace c = true -> is_word c = false.
Proof.
  intros Hs. unfold is_word. destruct (is_ascii c) eqn:Ha.
  - unfold isspace, is_ascii, ascii_word, in_range in *.
    apply N.ltb_lt in Ha.
    repeat rewrite ?orb_true_iff, ?andb_true_iff, ?N.leb_le, ?N.eqb_eq in Hs.
    repeat rewrite ?orb_false_iff, ?andb_false_iff, ?N.leb_gt, ?N.eqb_neq.
    lia.
  - now apply uni_alnum_space.
Qed.

Lemma spaces_non_word l : forallb isspace l = true -> forallb non_word l = true.
Proof.
  induction l as [|c l IH]; [reflexivity|]. simpl.
  intros [Hc Hl]%andb_true_iff. unfold non_word at 1.
  now rewrite (isspace_not_word _ Hc), IH.
Qed.

Lemma semicolons_non_word n : forallb non_word (repeat semicolon n) = true.
Proof. induction n as [|n IH]; [reflexivity|]. simpl. exact IH. Qed.

Lemma non_word_last l : forallb non_word l = true -> word_opt (last_opt l) = false.
Proof.
  induction l as [|c l IH]; [reflexivity|]. simpl forallb.
  intros [Hc Hl]%andb_true_iff. destruct l as [|d l].
  - simpl. unfold non_word in Hc. now destruct (is_word c).
  - rewrite last_opt_cons. now apply IH.
Qed.

Lemma non_word_head l : forallb non_word l = true -> word_opt (hd_error l) = false.
Proof.
  destruct l as [|c l]; [reflexivity|]. simpl.
  intros [Hc _]%andb_true_iff. unfold non_word in Hc. now destruct (is_word c).
Qed.

Lemma word_opt_last_app l a :
  forallb non_word l = true ->
  word_opt (last_opt (l ++ a)) = word_opt (last_opt a).
Proof.
  intros Hl. destruct a as [|c a].
  - rewrite app_nil_r. now apply non_word_last.
  - now rewrite last_opt_app_cons.
Qed.

Lemma word_opt_head_app a r :
  word_opt (hd_error r) = false ->
  word_opt (hd_error (a ++ r)) = word_opt (hd_error a).
Proof. intros Hr. now destruct a. Qed.

End WordFacts.

(* ================================================================= *)
(** ** Occurrences of a keyword *)

Section OccurrenceFacts.
Context `{UnicodeDB}.

Lemma at_boundary_eq p p' s s' :
  word_opt p = word_opt p' ->
  word_opt (hd_error s) = word_opt (hd_error s') ->
  at_boundary p s = at_boundary p' s'.
Proof. unfold at_boundary. now intros -> ->. Qed.

Lemma hd_error_app_cons (c : char) w r : hd_error ((c :: w) ++ r) = Some c.
Proof. reflexivity. Qed.

(** Characters that are not of a word, put around a subject, leave its
    occurrences in place. *)
Lemma occurrence_widen kw l pre w post r :
  w <> [] ->
  forallb non_word l = true -> word_opt (hd_error r) = false ->
  occurrence kw pre w post <-> occurrence kw (l ++ pre) w (post ++ r).
Proof.
  intros Hw Hl Hr. unfold occurrence.
  destruct w as [|c w]; [congruence|].
  rewrite <- (app_assoc l pre (c :: w)).
  rewrite (at_boundary_eq (last_opt (l ++ pre)) (last_opt pre)
             ((c :: w) ++ post ++ r) ((c :: w) ++ post))
    by (now try apply word_opt_last_app).
  rewrite (at_boundary_eq (last_opt (l ++ pre ++ c :: w)) (last_opt (pre ++ c :: w))
             (post ++ r) post)
    by (try apply word_opt_head_app; try apply word_opt_last_app; assumption).
  reflexivity.
Qed.

Lemma has_keyword_widen kw l s r :
  kw <> ""%string ->
  forallb non_word l = true -> forallb non_word r = true ->
  has_keyword [kw] s -> has_keyword [kw] (l ++ s ++ r).
Proof.
  intros Hkw Hl Hr (kw' & pre & w & post & [<-|[]] & -> & Ho).
  exists kw, (l ++ pre), w, (post ++ r). split; [now left|]. split.
  - now rewrite <- !app_assoc.
  - apply occurrence_widen; auto using non_word_head.
    destruct Ho as (Hs & _). intros ->. destruct kw; [congruence|discriminate].
Qed.

Lemma spells_last kw : forall w q,
  spells kw w = true -> last_opt kw = Some q ->
  exists y, last_opt w = Some y /\ lit_ignore q y = true.
Proof.
  induction kw as [|q0 kw IH]; intros w q Hs Hq; [discriminate|].
  destruct w as [|c w]; [discriminate|]. simpl in Hs.
  apply andb_true_iff in Hs as [Hc Hs]. destruct kw as [|q1 kw].
  - destruct w; [|discriminate]. injection Hq as <-. now exists c.
  - destruct w as [|d w]; [discriminate|].
    rewrite last_opt_cons in *. now apply IH.
Qed.

Lemma last_char_eq (a w b l : pystr) y z :
  a ++ w = b ++ l -> last_opt w = Some y -> last_opt l = Some z -> y = z.
Proof.
  intros He Hy Hz. apply (f_equal last_opt) in He.
  rewrite !last_opt_app in He. unfold prev_after in He.
  rewrite Hy, Hz in He. congruence.
Qed.

Lemma app_inj_length (a b c d : pystr) :
  a ++ b = c ++ d -> List.length b = List.length d -> a = c /\ b = d.
Proof.
  intros He Hl. apply app_eq_app in He as (l & [[-> ->]|[-> ->]]);
    rewrite length_app in Hl; destruct l; simpl in Hl; try lia;
    now rewrite app_nil_r.
Qed.

(** After [" LIMIT 500"] is put behind a string without the keyword, the
    keyword occurs once: where it was put. *)
Lemma limit_appended_once X pre w post :
  ~ has_keyword ["LIMIT"%string] X ->
  X ++ py " LIMIT 500" = pre ++ w ++ post ->
  occurrence "LIMIT" pre w post ->
  pre = X ++ py " " /\ w = py "LIMIT" /\ post = py " 500".
Proof.
  intros Hno He Ho. pose proof Ho as (Hs & _).
  pose proof (spells_length _ _ Hs) as Hlen.
  destruct (spells_last _ _ Hs (q := 84%N) eq_refl) as (y & Hy & Hty).
  assert (Hw : w <> []) by (intros ->; discriminate).
  symmetry in He. rewrite app_assoc in He.
  apply app_eq_app in He as (l & [[He Ht]|[He Ht]]).
  - (* the occurrence ends inside what was appended *)
    change (py " LIMIT 500")
      with [32; 76; 73; 77; 73; 84; 32; 53; 48; 48]%N in Ht.
    destruct l as [|z0 l].
    { exfalso. rewrite app_nil_r in He. simpl in Ht. subst post.
      apply Hno. exists "LIMIT"%string, pre, w, []. split; [now left|]. split.
      - now rewrite <- He, app_nil_r.
      - apply (proj2 (@occurrence_widen "LIMIT" [] pre w [] (py " LIMIT 500") Hw eq_refl eq_refl)).
        exact Ho. }
    assert (Hz : forall z, last_opt (z0 :: l) = Some z -> lit_ignore 84%N z = true).
    { intros z Hz. now rewrite <- (last_char_eq _ _ _ _ He Hy Hz). }
    simpl in Ht. injection Ht as <- Ht.
    repeat (destruct l as [|? l];
            [ try (specialize (Hz _ eq_refl); vm_compute in Hz; discriminate)
            | simpl in Ht; first [discriminate Ht | injection Ht as <- Ht] ]).
    simpl in Ht. subst post.
    change (X ++ [32; 76; 73; 77; 73; 84]%N) with (X ++ py " " ++ py "LIMIT") in He.
    rewrite app_assoc in He. apply app_inj_length in He as [-> ->]; [auto|].
    now rewrite Hlen.
  - (* the occurrence lies in the string itself *)
    exfalso. apply Hno. subst post.
    exists "LIMIT"%string, pre, w, l. split; [now left|]. split.
    + now rewrite He, <- app_assoc.
    + apply (proj2 (@occurrence_widen "LIMIT" [] pre w l (py " LIMIT 500") Hw eq_refl eq_refl)).
      exact Ho.
Qed.

End OccurrenceFacts.

(* ================================================================= *)
(** ** Replacing the spellings of a word *)

Lemma prefix_i_length kw : forall s,
  prefix_i kw s = true -> List.length kw <= List.length s.
Proof.
  induction kw as [|q kw IH]; intros s Hp; simpl in *; [lia|].
  destruct s as [|c t]; [discriminate|].
  apply andb_true_iff in Hp as [_ Hp]. apply IH in Hp. simpl. lia.
Qed.

Lemma prefix_i_app kw : forall a b,
  prefix_i kw a = true -> prefix_i kw (a ++ b) = true.
Proof.
  induction kw as [|q kw IH]; intros a b Hp; [reflexivity|].
  destruct a as [|c a]; [discriminate|]. simpl in *.
  apply andb_true_iff in Hp as [-> Hp]. now apply IH.
Qed.

Lemma prefix_i_spells kw : forall s,
  prefix_i kw s = true <-> exists w t, s = w ++ t /\ spells kw w = true.
Proof.
  induction kw as [|q kw IH]; intros s; simpl.
  - split; [now exists [], s|reflexivity].
  - destruct s as [|c s].
    + split; [discriminate|]. intros (w & t & Hs & Hw).
      destruct w; [discriminate|discriminate].
    + rewrite andb_true_iff, IH. split.
      * intros (Hc & w & t & -> & Hw). exists (c :: w), t.
        simpl. now rewrite Hc, Hw.
      * intros (w & t & Hs & Hw). destruct w as [|d w]; [discriminate|].
        injection Hs as <- ->. apply andb_true_iff in Hw as [Hc Hw].
        split; [exact Hc|]. now exists w, t.
Qed.

Lemma spells_prefix_i kw w t : spells kw w = true -> prefix_i kw (w ++ t) = true.
Proof. intros Hw. apply prefix_i_spells. now exists w, t. Qed.

Section MatchWord.
Context `{UnicodeDB}.

Lemma rmatch_word kw : forall p s k,
  rmatch (seq_of LitI kw) p s k =
  if prefix_i kw s
  then k (prev_after p (firstn (List.length kw) s)) (skipn (List.length kw) s)
  else None.
Proof.
  induction kw as [|q kw IH]; intros p s k; simpl; [reflexivity|].
  destruct s as [|c t]; [reflexivity|]. simpl.
  destruct (lit_ignore q c); [|reflexivity].
  rewrite IH. simpl. now rewrite prev_after_cons.
Qed.

Lemma match_here_word kw p s :
  match_here (seq_of LitI kw) p s =
  if prefix_i kw s then Some (skipn (List.length kw) s) else None.
Proof. unfold match_here. now rewrite rmatch_word. Qed.

(** [re.sub] with a word under [re.I] is [subst_i]. *)
Lemma sub_from_word kw repl : forall s p n,
  sub_from (seq_of LitI kw) repl p s n = subst_i kw repl s n.
Proof.
  induction s as [|c t IH]; intros p n.
  - destruct n; simpl; [|reflexivity].
    rewrite match_here_word. now destruct (prefix_i kw []).
  - destruct n as [|n]; [|simpl; apply IH].
    cbn [sub_from subst_i]. rewrite match_here_word.
    destruct (prefix_i kw (c :: t)) eqn:Hp.
    + apply prefix_i_length in Hp. rewrite length_skipn.
      replace (List.length (c :: t) - (List.length (c :: t) - List.length kw))
        with (List.length kw) by lia.
      destruct (List.length kw); now rewrite IH.
    + now rewrite IH.
Qed.

Lemma fix_step_subst sql fx :
  fix_step sql fx = subst_i (py (fst fx)) (quoted (snd fx)) sql 0.
Proof. apply sub_from_word. Qed.

End MatchWord.

Lemma subst_i_skip kw repl a : forall b,
  subst_i kw repl (a ++ b) (List.length a) = subst_i kw repl b 0.
Proof. induction a as [|c a IH]; intros b; [reflexivity|]. simpl. apply IH. Qed.

(** A replacement does not see across a point that no spelling crosses. *)
Lemma subst_i_split kw repl b : kw <> [] -> forall a n,
  (forall a1 c a2, a = a1 ++ c :: a2 ->
     prefix_i kw (c :: a2 ++ b) = true -> prefix_i kw (c :: a2) = true) ->
  n <= List.length a ->
  subst_i kw repl (a ++ b) n = subst_i kw repl a n ++ subst_i kw repl b 0.
Proof.
  intros Hkw. induction a as [|c a IH]; intros n Hno Hn.
  - simpl in Hn. replace n with 0 by lia. simpl.
    destruct kw; [congruence|reflexivity].
  - assert (Hno' : forall a1 d a2, a = a1 ++ d :: a2 ->
              prefix_i kw (d :: a2 ++ b) = true -> prefix_i kw (d :: a2) = true).
    { intros a1 d a2 ->. now apply (Hno (c :: a1)). }
    destruct n as [|n].
    + simpl app. cbn [subst_i].
      destruct (prefix_i kw (c :: a ++ b)) eqn:Hp.
      * rewrite (Hno [] c a eq_refl Hp).
        pose proof (prefix_i_length _ _ (Hno [] c a eq_refl Hp)) as Hl.
        destruct (List.length kw) as [|m] eqn:Hlen.
        { destruct kw; [congruence|discriminate]. }
        rewrite <- app_assoc. f_equal. apply IH; [exact Hno'|simpl in Hl; lia].
      * destruct (prefix_i kw (c :: a)) eqn:Hp'.
        { pose proof (prefix_i_app kw (c :: a) b Hp') as Hq.
          simpl app in Hq. congruence. }
        simpl. f_equal. apply IH; [exact Hno'|lia].
    + simpl. apply IH; [exact Hno'|simpl in Hn; lia].
Qed.

(** Where the word is not spelled, nothing is replaced. *)
Lemma subst_i_none kw repl : kw <> [] -> forall s,
  ~ spelled_in kw s -> subst_i kw repl s 0 = s.
Proof.
  intros Hkw. induction s as [|c t IH]; intros Hno.
  - simpl. destruct kw; [congruence|reflexivity].
  - cbn [subst_i]. destruct (prefix_i kw (c :: t)) eqn:Hp.
    + exfalso. apply Hno. apply prefix_i_spells in Hp as (w & t' & Hs & Hw).
      exists [], w, t'. now split.
    + f_equal. apply IH. intros (a & w & b & -> & Hw). apply Hno.
      exists (c :: a), w, b. now split.
Qed.

Lemma subst_i_short kw repl s :
  List.length s < List.length kw -> subst_i kw repl s 0 = s.
Proof.
  intros Hl. apply subst_i_none.
  - intros ->. simpl in Hl. lia.
  - intros (a & w & b & -> & Hw). apply spells_length in Hw.
    rewrite !length_app in Hl. lia.
Qed.

Lemma spelled_inb_iff kw : forall s, spelled_inb kw s = true <-> spelled_in kw s.
Proof.
  induction s as [|c t IH].
  - simpl. rewrite orb_false_r, prefix_i_spells. split.
    + intros (w & t & Hs & Hw). now exists [], w, t.
    + intros (a & w & b & Hs & Hw). symmetry in Hs.
      apply app_eq_nil in Hs as [-> Hs]. now exists w, b.
  - cbn [spelled_inb]. rewrite orb_true_iff, IH, prefix_i_spells. split.
    + intros [(w & t' & Hs & Hw)|(a & w & b & -> & Hw)].
      * now exists [], w, t'.
      * now exists (c :: a), w, b.
    + intros (a & w & b & Hs & Hw). destruct a as [|d a].
      * left. now exists w, b.
      * right. injection Hs as <- ->. now exists a, w, b.
Qed.

(** The leftmost spelling is replaced, whatever stands around it. *)
Lemma subst_i_first kw repl w post : kw <> [] -> spells kw w = true ->
  forall pre, none_starts_in kw pre (w ++ post) = true ->
  subst_i kw repl (pre ++ w ++ post) 0 = pre ++ repl ++ subst_i kw repl post 0.
Proof.
  intros Hkw Hw. induction pre as [|c pre IH]; intros Hno.
  - simpl app. pose proof (spells_prefix_i kw w post Hw) as Hp.
    pose proof (spells_length _ _ Hw) as Hl.
    destruct w as [|d w]; [destruct kw; [congruence|discriminate]|].
    simpl app in *. cbn [subst_i]. rewrite Hp.
    simpl in Hl. rewrite <- Hl. f_equal. apply subst_i_skip.
  - cbn [none_starts_in] in Hno. apply andb_true_iff in Hno as [Hc Hno].
    apply negb_true_iff in Hc. simpl app in *. cbn [subst_i]. rewrite Hc.
    f_equal. now apply IH.
Qed.

(* ================================================================= *)
(** ** What the fixes leave alone *)

Ltac n_cases :=
  repeat match goal with
         | |- context [N.leb ?a ?b] => destruct (N.leb_spec a b)
         | |- context [N.eqb ?a ?b] => destruct (N.eqb_spec a b)
         | |- context [N.ltb ?a ?b] => destruct (N.ltb_spec a b)
         | H : context [N.leb ?a ?b] |- _ => destruct (N.leb_spec a b)
         | H : context [N.eqb ?a ?b] |- _ => destruct (N.eqb_spec a b)
         end; simpl in *; try discriminate; try lia.

Lemma lower_letter q : ascii_letter q = true -> (97 <= lower q <= 122)%N.
Proof. unfold ascii_letter, lower, in_range. intros Hq. n_cases. Qed.

Lemma lower_to_letter c :
  (97 <= lower c <= 122)%N ->
  (65 <= c <= 90)%N \/ (97 <= c <= 122)%N \/ c = 0x130%N \/ c = 0x212A%N.
Proof. unfold lower, in_range. intros Hc. revert Hc. n_cases. Qed.

Lemma lower_to_extra c lo :
  In (lower c) (ign_fixes lo) -> c = 0x131%N \/ c = 0x17F%N.
Proof.
  unfold ign_fixes, lower, in_range.
  n_cases; intros Hc; simpl in Hc; intuition lia.
Qed.

Section Guarded.
Context `{UnicodeDB}.

Lemma ascii_letter_word c :
  (65 <= c <= 90)%N \/ (97 <= c <= 122)%N -> is_word c = true.
Proof.
  intros Hc. unfold is_word, is_ascii, ascii_word, in_range. n_cases.
Qed.

Lemma fold_extra_word c : In c fold_extras -> is_word c = true.
Proof.
  intros Hc. pose proof (@uni_alnum_fold _ c Hc) as Hu. simpl in Hc.
  unfold is_word. destruct Hc as [<-|[<-|[<-|[<-|[]]]]]; exact Hu.
Qed.

(** Whatever spells a letter of a pattern is a character of a word. *)
Lemma lit_ignore_word q c :
  ascii_letter q = true -> lit_ignore q c = true -> is_word c = true.
Proof.
  intros Hq Hc. unfold lit_ignore in Hc. cbn [existsb] in Hc.
  apply orb_true_iff in Hc as [Hc|Hc].
  - apply N.eqb_eq in Hc. pose proof (lower_letter q Hq) as Hl.
    rewrite <- Hc in Hl. apply lower_to_letter in Hl as [Hl|[Hl|[Hl|Hl]]].
    + apply ascii_letter_word; auto.
    + apply ascii_letter_word; auto.
    + subst c. apply fold_extra_word. simpl; auto.
    + subst c. apply fold_extra_word. simpl; auto.
  - apply existsb_exists in Hc as (x & Hin & Hx). apply N.eqb_eq in Hx. subst x.
    apply lower_to_extra in Hin as [Hin|Hin]; subst c;
      apply fold_extra_word; simpl; auto.
Qed.

Lemma all_word_last a :
  a <> [] -> forallb is_word a = true -> word_opt (last_opt a) = true.
Proof.
  induction a as [|c a IH]; intros Ha Hw; [congruence|].
  simpl in Hw. apply andb_true_iff in Hw as [Hc Hw].
  destruct a as [|d a]; [exact Hc|].
  rewrite last_opt_cons. now apply IH.
Qed.

(** A spelling that starts in [a] and is not over by its end takes all the
    rest of [a], and the first character of [b]: all characters of a
    word. *)
Lemma prefix_i_app_inv kw : forallb ascii_letter kw = true -> forall a b,
  prefix_i kw (a ++ b) = true ->
  prefix_i kw a = true
  \/ (forallb is_word a = true
      /\ exists y t, b = y :: t /\ is_word y = true).
Proof.
  induction kw as [|q kw IH]; intros Hk a b Hp; [now left|].
  simpl in Hk. apply andb_true_iff in Hk as [Hq Hk].
  destruct a as [|c a].
  - right. split; [reflexivity|]. simpl in Hp.
    destruct b as [|y t]; [discriminate|].
    apply andb_true_iff in Hp as [Hy _].
    exists y, t. split; [reflexivity|]. now apply (lit_ignore_word q).
  - simpl in Hp. apply andb_true_iff in Hp as [Hc Hp]. simpl.
    rewrite Hc. destruct (IH Hk a b Hp) as [Hl|[Hw Hb]]; [now left|right].
    split; [|exact Hb]. now rewrite (lit_ignore_word q c Hq Hc).
Qed.

Lemma last_opt_Some s x : last_opt s = Some x -> exists s0, s = s0 ++ [x].
Proof.
  induction s as [|c s IH]; [discriminate|]. destruct s as [|d s].
  - intros [= <-]. now exists [].
  - rewrite last_opt_cons. intros Hl. destruct (IH Hl) as (s0 & ->).
    now exists (c :: s0).
Qed.

Variables (kw repl : pystr).
Hypothesis kw_letters : forallb ascii_letter kw = true.
Hypothesis kw_nonempty : kw <> [].
Hypothesis repl_head : exists r0 r, repl = r0 :: r /\ is_word r0 = false.

Lemma prefix_i_head_word y t : prefix_i kw (y :: t) = true -> is_word y = true.
Proof.
  destruct kw as [|q kw']; [congruence|]. simpl in *.
  apply andb_true_iff in kw_letters as [Hq _].
  intros [Hy _]%andb_true_iff. now apply (lit_ignore_word q).
Qed.

(** No spelling crosses a point that has a character not of a word on
    its right... *)
Lemma subst_i_split_right a b :
  word_opt (hd_error b) = false ->
  subst_i kw repl (a ++ b) 0 = subst_i kw repl a 0 ++ subst_i kw repl b 0.
Proof.
  intros Hb. apply subst_i_split; [exact kw_nonempty| |lia].
  intros a1 c a2 -> Hp.
  destruct (prefix_i_app_inv kw kw_letters (c :: a2) b Hp) as [Hl|[_ (y & t & -> & Hy)]];
    [exact Hl|].
  simpl in Hb. congruence.
Qed.

(** ... or on its left. *)
Lemma subst_i_split_left a b :
  word_opt (last_opt a) = false ->
  subst_i kw repl (a ++ b) 0 = subst_i kw repl a 0 ++ subst_i kw repl b 0.
Proof.
  intros Ha. apply subst_i_split; [exact kw_nonempty| |lia].
  intros a1 c a2 -> Hp.
  destruct (prefix_i_app_inv kw kw_letters (c :: a2) b Hp) as [Hl|[Hw _]];
    [exact Hl|].
  rewrite last_opt_app_cons in Ha.
  rewrite all_word_last in Ha; [discriminate|discriminate|exact Hw].
Qed.

Lemma subst_i_last a :
  word_opt (last_opt a) = false ->
  word_opt (last_opt (subst_i kw repl a 0)) = false.
Proof.
  intros Ha. destruct (last_opt a) as [x|] eqn:Hl.
  - apply last_opt_Some in Hl as (a0 & ->).
    rewrite subst_i_split_right by (simpl; exact Ha).
    replace (subst_i kw repl [x] 0) with [x].
    + now rewrite last_opt_snoc.
    + cbn [subst_i]. destruct (prefix_i kw [x]) eqn:Hp.
      * apply prefix_i_head_word in Hp. simpl in Ha. congruence.
      * destruct kw; [congruence|reflexivity].
  - destruct a as [|c a].
    + simpl. destruct kw; [congruence|reflexivity].
    + exfalso. revert c Hl. induction a as [|d a IH]; intros c Hl; [discriminate|].
      now apply (IH d).
Qed.

Lemma subst_i_head b :
  word_opt (hd_error b) = false ->
  word_opt (hd_error (subst_i kw repl b 0)) = false.
Proof.
  intros Hb. destruct b as [|y t].
  - simpl. destruct kw; [congruence|reflexivity].
  - cbn [subst_i]. destruct (prefix_i kw (y :: t)); [|exact Hb].
    destruct repl_head as (r0 & r & -> & Hr).
    destruct (List.length kw); simpl; exact Hr.
Qed.

(** A word shorter than [kw], with no character of a word next to it on
    either side, stays as it is, and so do its two sides' ends. *)
Lemma subst_i_guarded pre w post :
  List.length w < List.length kw ->
  word_opt (last_opt pre) = false -> word_opt (hd_error post) = false ->
  subst_i kw repl (pre ++ w ++ post) 0
  = subst_i kw repl pre 0 ++ w ++ subst_i kw repl post 0.
Proof.
  intros Hl Hpre Hpost.
  rewrite subst_i_split_left by exact Hpre.
  rewrite subst_i_split_right by exact Hpost.
  now rewrite (subst_i_short kw repl w Hl).
Qed.

End Guarded.

Section FixesFacts.
Context `{UnicodeDB}.

Lemma spells_all_word kw : forallb ascii_letter kw = true -> forall w,
  spells kw w = true -> forallb is_word w = true.
Proof.
  induction kw as [|q kw IH]; intros Hk [|c w] Hs; try discriminate; [reflexivity|].
  simpl in *. apply andb_true_iff in Hk as [Hq Hk].
  apply andb_true_iff in Hs as [Hc Hs].
  now rewrite (lit_ignore_word q c Hq Hc), IH.
Qed.

(** An occurrence of a keyword has no character of a word on either side,
    and the other way round. *)
Lemma occurrence_neighbours kw pre w post :
  forallb ascii_letter (py kw) = true -> kw <> ""%string ->
  occurrence kw pre w post <->
  spells (py kw) w = true
  /\ word_opt (last_opt pre) = false /\ word_opt (hd_error post) = false.
Proof.
  intros Hk Hne. unfold occurrence, at_boundary.
  assert (Hw : spells (py kw) w = true ->
               word_opt (hd_error (w ++ post)) = true
               /\ word_opt (last_opt (pre ++ w)) = true).
  { intros Hs. pose proof (spells_all_word _ Hk _ Hs) as Hall.
    destruct w as [|c w].
    - destruct kw; [congruence|discriminate].
    - split.
      + simpl in *. now apply andb_true_iff in Hall as [-> _].
      + rewrite last_opt_app_cons. now apply all_word_last. }
  split.
  - intros (Hs & Hb1 & Hb2). destruct (Hw Hs) as [E1 E2].
    rewrite E1 in Hb1. rewrite E2 in Hb2.
    split; [exact Hs|].
    split; [now destruct (word_opt (last_opt pre))
           |now destruct (word_opt (hd_error post))].
  - intros (Hs & Hb1 & Hb2). destruct (Hw Hs) as [E1 E2].
    now rewrite E1, E2, Hb1, Hb2.
Qed.

Lemma quoted_head s : exists r0 r, quoted s = r0 :: r /\ is_word r0 = false.
Proof. now exists dquote, (py s ++ [dquote]). Qed.

Lemma fold_fix_guarded w fxs : fixes_spare w fxs -> forall pre post,
  word_opt (last_opt pre) = false -> word_opt (hd_error post) = false ->
  fold_left fix_step fxs (pre ++ w ++ post)
  = fold_left fix_step fxs pre ++ w ++ fold_left fix_step fxs post.
Proof.
  induction 1 as [|fx fxs [Hk Hl] _ IH]; intros pre post Hpre Hpost; [reflexivity|].
  assert (Hne : py (fst fx) <> []) by (intros E; rewrite E in Hl; simpl in Hl; lia).
  simpl. rewrite !fix_step_subst.
  rewrite (@subst_i_guarded _ (py (fst fx)) (quoted (snd fx)) Hk Hne pre w post Hl Hpre Hpost).
  apply IH.
  - now apply subst_i_last.
  - apply subst_i_head; auto using quoted_head.
Qed.

Lemma fold_fix_none fxs : forall s,
  (forall fx, In fx fxs -> fst fx <> ""%string /\ ~ spelled_in (py (fst fx)) s) ->
  fold_left fix_step fxs s = s.
Proof.
  induction fxs as [|fx fxs IH]; intros s Hno; [reflexivity|].
  simpl. rewrite fix_step_subst, subst_i_none.
  - apply IH. intros fx' Hin. apply Hno. now right.
  - destruct (Hno fx (or_introl eq_refl)) as [Hne _].
    destruct (fst fx); [congruence|discriminate].
  - apply Hno. now left.
Qed.

Lemma fixes_spare_limit w :
  List.length w = 5 -> fixes_spare w fixes.
Proof.
  intros Hl. unfold fixes_spare, fixes. rewrite Hl.
  repeat constructor; simpl; lia.
Qed.

(** The fixes leave an occurrence of LIMIT where it is and rewrite what is
    before it and what is after it, each on its own. *)
Lemma apply_fixes_limit pre w post :
  occurrence "LIMIT" pre w post ->
  apply_fixes (pre ++ w ++ post) = apply_fixes pre ++ w ++ apply_fixes post
  /\ occurrence "LIMIT" (apply_fixes pre) w (apply_fixes post).
Proof.
  intros Ho. apply occurrence_neighbours in Ho as (Hs & Hpre & Hpost);
    [|reflexivity|discriminate].
  pose proof (fixes_spare_limit w (spells_length _ _ Hs)) as Hsp.
  split; [now apply fold_fix_guarded|].
  apply occurrence_neighbours; [reflexivity|discriminate|].
  split; [exact Hs|]. unfold apply_fixes. clear Hs.
  revert pre post Hpre Hpost.
  induction Hsp as [|fx fxs [Hk Hl] _ IH]; intros pre post Hpre Hpost; [now split|].
  assert (Hne : py (fst fx) <> []) by (intros E; rewrite E in Hl; simpl in Hl; lia).
  simpl. rewrite !fix_step_subst. apply IH.
  - now apply subst_i_last.
  - apply subst_i_head; auto using quoted_head.
Qed.

End FixesFacts.

(* ================================================================= *)
(** ** Code fences *)

Section FenceFacts.
Context `{UnicodeDB}.

Lemma star_match_greedy a : forall s p,
  star_match a p s (fun _ rest => Some rest) = Some (lstrip_by (atom_ok a) s).
Proof.
  induction s as [|c t IH]; intros p; simpl; [reflexivity|].
  destruct (atom_ok a c); [now rewrite IH|reflexivity].
Qed.

Lemma letters_set c : atom_ok (InSet [(97, 122); (65, 90)]%N) c = ascii_letter c.
Proof. unfold ascii_letter. simpl. now rewrite orb_false_r. Qed.

(** [^] matches at the start only: further on, [re.sub] copies. *)
Lemma sub_from_bol r repl : forall s p n,
  sub_from (Seq Bol r) repl (Some p) s n = skipn n s.
Proof.
  induction s as [|c t IH]; intros p n.
  - now destruct n.
  - destruct n as [|n]; simpl; now rewrite IH.
Qed.

Lemma match_here_fence_open s :
  match_here FENCE_OPEN None s =
  match s with
  | c0 :: c1 :: c2 :: t =>
      if ((c0 =? backtick) && (c1 =? backtick) && (c2 =? backtick))%N
      then Some (lstrip_by ascii_letter t) else None
  | _ => None
  end.
Proof.
  unfold match_here, FENCE_OPEN. simpl.
  destruct s as [|c0 [|c1 [|c2 t]]]; simpl; try reflexivity.
  - now destruct (c0 =? 96)%N.
  - now destruct (c0 =? 96)%N, (c1 =? 96)%N.
  - unfold backtick.
    destruct (c0 =? 96)%N, (c1 =? 96)%N, (c2 =? 96)%N; simpl; try reflexivity.
    rewrite star_match_greedy. f_equal.
    clear. induction t as [|c t IH]; [reflexivity|]. cbn [lstrip_by].
    rewrite letters_set, IH. reflexivity.
Qed.

(** The first clean-up takes an opening fence with its tag off the start,
    or nothing. *)
Lemma re_sub_fence_open s :
  exists f, s = f ++ re_sub FENCE_OPEN [] s
    /\ (f = [] \/ exists tag, f = py "```" ++ tag /\ forallb ascii_letter tag = true).
Proof.
  unfold re_sub. destruct s as [|c0 s']; [now exists []; split; [|left]|].
  cbn [sub_from]. rewrite match_here_fence_open.
  destruct s' as [|c1 [|c2 t]].
  1-2: (exists []; split; [|now left]; simpl; unfold FENCE_OPEN;
        now rewrite ?sub_from_bol).
  destruct ((c0 =? backtick) && (c1 =? backtick) && (c2 =? backtick))%N eqn:Hb.
  - apply andb_true_iff in Hb as [Hb H2]. apply andb_true_iff in Hb as [H0 H1].
    apply N.eqb_eq in H0, H1, H2. subst c0 c1 c2.
    destruct (lstrip_by_split ascii_letter t) as (tag & Ht & Htag).
    exists (py "```" ++ tag). split; [|right; now exists tag].
    remember (lstrip_by ascii_letter t) as rest eqn:Hrest. clear Hrest. subst t.
    replace (List.length (backtick :: backtick :: backtick :: tag ++ rest)
             - List.length rest) with (S (2 + List.length tag))
      by (cbn [List.length]; rewrite length_app; lia).
    unfold FENCE_OPEN. rewrite sub_from_bol.
    cbn [Nat.add skipn]. rewrite skipn_app, skipn_all, Nat.sub_diag.
    reflexivity.
  - exists []. split; [|now left]. simpl. unfold FENCE_OPEN.
    now rewrite sub_from_bol.
Qed.

Lemma match_here_fence_close p s rest :
  match_here FENCE_CLOSE p s = Some rest ->
  s = py "```" ++ rest /\ at_end rest = true.
Proof.
  unfold match_here, FENCE_CLOSE. simpl.
  destruct s as [|c0 [|c1 [|c2 t]]]; simpl; try discriminate.
  - now destruct (c0 =? 96)%N.
  - now destruct (c0 =? 96)%N, (c1 =? 96)%N.
  - destruct (N.eqb_spec c0 96), (N.eqb_spec c1 96), (N.eqb_spec c2 96);
      simpl; try discriminate.
    subst. destruct (at_end t) eqn:He; [|discriminate].
    now intros [= <-].
Qed.

(** The second clean-up takes a closing fence off the end, or nothing:
    the subject has been stripped and does not end in a newline. *)
Lemma sub_from_fence_close : forall s p,
  (forall c, last_opt s = Some c -> c <> newline) ->
  exists g, s = sub_from FENCE_CLOSE [] p s 0 ++ g /\ (g = [] \/ g = py "```").
Proof.
  induction s as [|c t IH]; intros p Hlast.
  - exists []. split; [|now left]. reflexivity.
  - cbn [sub_from]. destruct (match_here FENCE_CLOSE p (c :: t)) as [rest|] eqn:Hm.
    + apply match_here_fence_close in Hm as [Hs He].
      destruct rest as [|d [|e rest]]; [| |discriminate].
      * injection Hs as -> ->. exists (py "```"). split; [reflexivity|now right].
      * exfalso. simpl in He. apply N.eqb_eq in He. subst d.
        apply (Hlast newline); [|reflexivity]. now rewrite Hs.
    + destruct (IH (Some c)) as (g & Hg & Hcases).
      * intros d Hd. apply Hlast. destruct t; [discriminate|exact Hd].
      * exists g. split; [|exact Hcases]. simpl. now rewrite <- Hg.
Qed.

(** What [strip_fences] takes away: white space, an opening fence with its
    tag at the start, a closing fence at the end; what it returns stands
    in the completion as it is. *)
Lemma strip_fences_split content :
  exists ws0 open ws1 ws2 close ws3,
    content = ws0 ++ open ++ ws1 ++ strip_fences content ++ ws2 ++ close ++ ws3
    /\ forallb isspace (ws0 ++ ws1 ++ ws2 ++ ws3) = true
    /\ (open = [] \/ exists tag, open = py "```" ++ tag
                                 /\ forallb ascii_letter tag = true)
    /\ (close = [] \/ close = py "```").
Proof.
  unfold strip_fences.
  destruct (strip_split content) as (l0 & r0 & E0 & Hl0 & Hr0).
  set (s0 := strip content) in *.
  destruct (re_sub_fence_open s0) as (f & E1 & Hf).
  set (s1 := re_sub FENCE_OPEN [] s0) in *.
  destruct (strip_split s1) as (l1 & r1 & E2 & Hl1 & Hr1).
  set (s2 := strip s1) in *.
  destruct (sub_from_fence_close s2 None) as (g & E3 & Hg).
  { intros c Hc ->. now apply strip_last in Hc. }
  fold (re_sub FENCE_CLOSE [] s2) in E3.
  set (s3 := re_sub FENCE_CLOSE [] s2) in *.
  destruct (strip_split s3) as (l2 & r2 & E4 & Hl2 & Hr2).
  exists l0, f, (l1 ++ l2), r2, g, (r1 ++ r0).
  split; [|split; [|split; assumption]].
  - rewrite E0 at 1. rewrite E1 at 1. rewrite E2 at 1. rewrite E3 at 1.
    rewrite E4 at 1. now rewrite <- !app_assoc.
  - rewrite !forallb_app. now rewrite Hl0, Hl1, Hl2, Hr2, Hr1, Hr0.
Qed.

End FenceFacts.

(* ================================================================= *)
(** ** The sanitizer *)

Lemma suffix_skipn (out a b : pystr) :
  out = a ++ b -> skipn (List.length out - List.length b) out = b.
Proof.
  intros ->. rewrite length_app.
  replace (List.length a + List.length b - List.length b) with (List.length a) by lia.
  rewrite skipn_app, skipn_all, Nat.sub_diag. reflexivity.
Qed.

Section SanitizerFacts.
Context `{UnicodeDB}.

Lemma apply_fixes_none s : no_fix_key s = true -> apply_fixes s = s.
Proof.
  intros Hno. apply fold_fix_none. intros fx Hin. split.
  - simpl in Hin. intuition (subst; discriminate).
  - unfold no_fix_key in Hno. rewrite forallb_forall in Hno.
    specialize (Hno fx Hin). apply negb_true_iff in Hno.
    rewrite <- spelled_inb_iff. congruence.
Qed.

Lemma sanitize_sql_pass sql :
  ~ has_keyword DANGEROUS_words sql -> has_keyword ["SELECT"%string] sql ->
  sanitize_sql sql = Ok (add_limit (apply_fixes sql)).
Proof.
  intros Hd Hs. unfold sanitize_sql, DANGEROUS, SELECT_re.
  apply re_search_keyword_false in Hd. apply re_search_keyword in Hs.
  now rewrite Hd, Hs.
Qed.

Lemma no_limit_in_body sql :
  ~ has_keyword ["LIMIT"%string] sql ->
  ~ has_keyword ["LIMIT"%string] (rstrip [semicolon] (strip sql)).
Proof.
  intros Hno Hb. apply Hno.
  destruct (strip_split sql) as (l & r & E & Hl & Hr).
  destruct (rstrip_semicolon_split (strip sql)) as (n & En).
  rewrite E, En, <- app_assoc.
  apply has_keyword_widen; [discriminate| | |exact Hb].
  - now apply spaces_non_word.
  - rewrite forallb_app, semicolons_non_word. now apply spaces_non_word.
Qed.

End SanitizerFacts.

(* ================================================================= *)
(** ** The claims *)

(** C1.  An input that holds one of the keywords INSERT, UPDATE, DELETE,
    DROP, ALTER, TRUNCATE, CREATE, GRANT, REVOKE, in any casing and
    between word boundaries, wherever it stands (a string literal or a
    comment is no shelter, the scan knows neither), is refused:
    [sanitize_sql] raises the HTTP 400 error "Unsafe SQL blocked. Only
    SELECT allowed." and returns no string. *)
Theorem sanitize_sql_blocks_mutation `{UnicodeDB} (sql : pystr) :
  has_keyword ["INSERT"; "UPDATE"; "DELETE"; "DROP"; "ALTER"; "TRUNCATE";
               "CREATE"; "GRANT"; "REVOKE"]%string sql ->
  sanitize_sql sql
  = Raise {| status_code := 400;
             detail := py "Unsafe SQL blocked. Only SELECT allowed." |}
  /\ forall out, sanitize_sql sql <> Ok out.
Proof.
  intros Hk. apply (re_search_keyword DANGEROUS_words) in Hk.
  unfold sanitize_sql, DANGEROUS. rewrite Hk. split; [reflexivity|discriminate].
Qed.

Lemma sanitize_sql_blocks_mutation_witness :
  has_keyword (H := latin_db) DANGEROUS_words
    (py "select * from payments; DROP TABLE payments;")
  /\ @sanitize_sql latin_db (py "select * from payments; DROP TABLE payments;")
     = Raise unsafe_error.
Proof.
  assert (Hk : has_keyword (H := latin_db) DANGEROUS_words
                 (py "select * from payments; DROP TABLE payments;")).
  { exists "DROP"%string, (py "select * from payments; "), (py "DROP"),
      (py " TABLE payments;").
    split; [simpl; tauto|]. split; [reflexivity|]. vm_compute. auto. }
  split; [exact Hk|].
  exact (proj1 (@sanitize_sql_blocks_mutation latin_db _ Hk)).
Defined.

(** C2, as the claim has it, fails: an input without SELECT that holds a
    blocked keyword gets the other error, the mutation guard coming
    first. *)
Lemma sanitize_sql_invalid_counterexample :
  ~ (forall sql : pystr,
       ~ has_keyword (H := latin_db) ["SELECT"%string] sql ->
       @sanitize_sql latin_db sql
       = Raise {| status_code := 400;
                  detail := py "Only SELECT queries are allowed." |}).
Proof.
  intros Hall.
  specialize (Hall (py "UPDATE invoices SET totalamount=0")).
  assert (Hno : ~ has_keyword (H := latin_db) ["SELECT"%string]
                  (py "UPDATE invoices SET totalamount=0")).
  { apply (re_search_keyword_false (H := latin_db)). vm_compute. reflexivity. }
  apply Hall in Hno. vm_compute in Hno. discriminate Hno.
Qed.

(** C2, amended.  An input that holds none of the blocked keywords and no
    SELECT, in any casing and between word boundaries, is refused with the
    HTTP 400 error "Only SELECT queries are allowed." *)
Theorem sanitize_sql_requires_select `{UnicodeDB} (sql : pystr) :
  ~ has_keyword ["INSERT"; "UPDATE"; "DELETE"; "DROP"; "ALTER"; "TRUNCATE";
                 "CREATE"; "GRANT"; "REVOKE"]%string sql ->
  ~ has_keyword ["SELECT"%string] sql ->
  sanitize_sql sql
  = Raise {| status_code := 400;
             detail := py "Only SELECT queries are allowed." |}.
Proof.
  intros Hd Hs. apply (re_search_keyword_false DANGEROUS_words) in Hd.
  apply re_search_keyword_false in Hs.
  unfold sanitize_sql, DANGEROUS, SELECT_re. now rewrite Hd, Hs.
Qed.

Lemma sanitize_sql_requires_select_witness :
  @sanitize_sql latin_db (py "SHOW TABLES") = Raise invalid_error.
Proof.
  apply (@sanitize_sql_requires_select latin_db);
    apply (re_search_keyword_false (H := latin_db)); vm_compute; reflexivity.
Defined.

(** C3 fails on the code.  The keys of [fixes] are looked for without
    regard to casing or to quotes, so the canonical, quoted spelling holds
    its own key: on its own result [sanitize_sql] wraps the identifier in
    a second pair of quotes. *)
Theorem sanitize_sql_requotes `{UnicodeDB} :
  let once := py "SELECT " ++ quoted "vendorId" ++ py " FROM invoices LIMIT 500" in
  let twice := py "SELECT " ++ [dquote] ++ quoted "vendorId" ++ [dquote]
               ++ py " FROM invoices LIMIT 500" in
  sanitize_sql (py "SELECT vendorid FROM invoices") = Ok once
  /\ sanitize_sql once = Ok twice
  /\ twice <> once.
Proof.
  vm_compute. split; [reflexivity|]. split; [reflexivity|discriminate].
Qed.

(** C4, as the claim has it, fails: the search for LIMIT comes after the
    fixes, and a fix can put a quote, hence a word boundary, behind a
    "limit" that had none.  The input below has SELECT, none of the
    blocked keywords and no LIMIT between word boundaries; its result
    does not end in " LIMIT 500". *)
Lemma sanitize_sql_adds_limit_counterexample :
  ~ (forall sql : pystr,
       ~ has_keyword (H := latin_db) DANGEROUS_words sql ->
       has_keyword (H := latin_db) ["SELECT"%string] sql ->
       ~ has_keyword (H := latin_db) ["LIMIT"%string] sql ->
       exists body, @sanitize_sql latin_db sql = Ok (body ++ py " LIMIT 500")).
Proof.
  intros Hall.
  destruct (Hall (py "SELECT limitvendorid FROM t")) as (body & Hb).
  - apply (re_search_keyword_false (H := latin_db)). vm_compute. reflexivity.
  - apply (re_search_keyword (H := latin_db)). vm_compute. reflexivity.
  - apply (re_search_keyword_false (H := latin_db)). vm_compute. reflexivity.
  - assert (Hout : @sanitize_sql latin_db (py "SELECT limitvendorid FROM t")
                   = Ok (py "SELECT limit" ++ quoted "vendorId" ++ py " FROM t"))
      by (vm_compute; reflexivity).
    rewrite Hout in Hb. injection Hb as Hb.
    apply suffix_skipn in Hb. vm_compute in Hb. discriminate Hb.
Qed.

(** C4, amended.  For an input that holds SELECT and none of the blocked
    keywords, and in which, once the identifier fixes are applied, no
    LIMIT stands between word boundaries in any casing: the result is the
    fixed text, stripped of white space at both ends and then of the
    semicolons at its end, with " LIMIT 500" behind it; and that LIMIT is
    the only one in the result. *)
Theorem sanitize_sql_adds_limit `{UnicodeDB} (sql : pystr) :
  ~ has_keyword ["INSERT"; "UPDATE"; "DELETE"; "DROP"; "ALTER"; "TRUNCATE";
                 "CREATE"; "GRANT"; "REVOKE"]%string sql ->
  has_keyword ["SELECT"%string] sql ->
  ~ has_keyword ["LIMIT"%string] (apply_fixes sql) ->
  let body := rstrip [semicolon] (strip (apply_fixes sql)) in
  sanitize_sql sql = Ok (body ++ py " LIMIT 500")
  /\ only_occurrence "LIMIT" (body ++ py " LIMIT 500")
       (body ++ py " ") (py "LIMIT") (py " 500")
  /\ exists ws0 n ws1,
       apply_fixes sql = ws0 ++ body ++ repeat semicolon n ++ ws1
       /\ forallb isspace (ws0 ++ ws1) = true.
Proof.
  intros Hd Hs Hl body.
  pose proof (no_limit_in_body Hl) as Hbody. fold body in Hbody.
  split; [|split].
  - rewrite (sanitize_sql_pass Hd Hs). unfold add_limit, LIMIT_re.
    apply re_search_keyword_false in Hl. now rewrite Hl.
  - split; [now rewrite <- app_assoc|]. split.
    + apply occurrence_neighbours; [reflexivity|discriminate|].
      split; [reflexivity|]. split; [|reflexivity].
      change (py " ") with [32%N]. now rewrite last_opt_snoc.
    + intros pre' w' post' He Ho. now apply limit_appended_once.
  - destruct (strip_split (apply_fixes sql)) as (l & r & E & Hsl & Hsr).
    destruct (rstrip_semicolon_split (strip (apply_fixes sql))) as (n & En).
    fold body in En. exists l, n, r. split.
    + rewrite E at 1. rewrite En at 1. now rewrite <- app_assoc.
    + now rewrite forallb_app, Hsl, Hsr.
Qed.

Lemma sanitize_sql_adds_limit_witness :
  @sanitize_sql latin_db (py "  select InvoiceID from invoices ;; ")
  = Ok (py "select " ++ quoted "invoiceId" ++ py " from invoices  LIMIT 500").
Proof.
  refine (proj1 (@sanitize_sql_adds_limit latin_db
                   (py "  select InvoiceID from invoices ;; ") _ _ _)).
  - apply (re_search_keyword_false (H := latin_db)). vm_compute. reflexivity.
  - apply (re_search_keyword (H := latin_db)). vm_compute. reflexivity.
  - apply (re_search_keyword_false (H := latin_db)). vm_compute. reflexivity.
Defined.

(** C5, as the claim has it, fails: the fixes go through the whole text,
    the limit expression too, and rewrite an identifier of the table that
    stands in it. *)
Lemma sanitize_sql_keeps_limit_counterexample :
  ~ (forall pre w post : pystr,
       occurrence (H := latin_db) "LIMIT" pre w post ->
       ~ has_keyword (H := latin_db) DANGEROUS_words (pre ++ w ++ post) ->
       has_keyword (H := latin_db) ["SELECT"%string] (pre ++ w ++ post) ->
       exists pre', @sanitize_sql latin_db (pre ++ w ++ post)
                    = Ok (pre' ++ w ++ post)).
Proof.
  intros Hall.
  destruct (Hall (py "SELECT * FROM invoices ") (py "LIMIT")
              (py " (SELECT count(vendorid) FROM vendors)")) as (pre' & Hp).
  - vm_compute. auto.
  - apply (re_search_keyword_false (H := latin_db)). vm_compute. reflexivity.
  - apply (re_search_keyword (H := latin_db)). vm_compute. reflexivity.
  - assert (Hout : @sanitize_sql latin_db
                     (py "SELECT * FROM invoices " ++ py "LIMIT"
                      ++ py " (SELECT count(vendorid) FROM vendors)")
                   = Ok (py "SELECT * FROM invoices LIMIT (SELECT count("
                         ++ quoted "vendorId" ++ py ") FROM vendors)"))
      by (vm_compute; reflexivity).
    rewrite Hout in Hp. injection Hp as Hp.
    apply suffix_skipn in Hp. vm_compute in Hp. discriminate Hp.
Qed.

(** C5, amended.  For an input that passes both guards and holds a LIMIT
    between word boundaries, in any casing: nothing is appended and
    nothing is stripped; the LIMIT stands in the result as it is written,
    between what the identifier fixes make of the text before it and of
    the text after it.  Where the text after it spells none of the keys of
    the fixes, that text stands as it is too. *)
Theorem sanitize_sql_keeps_limit `{UnicodeDB} (pre w post : pystr) :
  occurrence "LIMIT" pre w post ->
  ~ has_keyword ["INSERT"; "UPDATE"; "DELETE"; "DROP"; "ALTER"; "TRUNCATE";
                 "CREATE"; "GRANT"; "REVOKE"]%string (pre ++ w ++ post) ->
  has_keyword ["SELECT"%string] (pre ++ w ++ post) ->
  sanitize_sql (pre ++ w ++ post) = Ok (apply_fixes pre ++ w ++ apply_fixes post)
  /\ (no_fix_key post = true ->
      sanitize_sql (pre ++ w ++ post) = Ok (apply_fixes pre ++ w ++ post)).
Proof.
  intros Ho Hd Hs.
  destruct (apply_fixes_limit Ho) as [Hfix Ho'].
  assert (Hout : sanitize_sql (pre ++ w ++ post)
                 = Ok (apply_fixes pre ++ w ++ apply_fixes post)).
  { rewrite (sanitize_sql_pass Hd Hs), Hfix. unfold add_limit, LIMIT_re.
    replace (re_search (keyword_re ["LIMIT"%string])
               (apply_fixes pre ++ w ++ apply_fixes post)) with true; [reflexivity|].
    symmetry. apply re_search_keyword.
    exists "LIMIT"%string, (apply_fixes pre), w, (apply_fixes post).
    split; [now left|]. now split. }
  split; [exact Hout|].
  intros Hno. now rewrite Hout, (apply_fixes_none _ Hno).
Qed.

Lemma sanitize_sql_keeps_limit_witness :
  @sanitize_sql latin_db (py "select TotalAmount from invoices " ++ py "limit" ++ py " 10;")
  = Ok (py "select " ++ quoted "totalAmount" ++ py " from invoices limit 10;").
Proof.
  refine (proj1 (@sanitize_sql_keeps_limit latin_db
                   (py "select TotalAmount from invoices ") (py "limit") (py " 10;")
                   _ _ _)).
  - vm_compute. auto.
  - apply (re_search_keyword_false (H := latin_db)). vm_compute. reflexivity.
  - apply (re_search_keyword (H := latin_db)). vm_compute. reflexivity.
Defined.

(** C6.  On "SELECT vendorid FROM invoices", [sanitize_sql] returns
    exactly [SELECT "vendorId" FROM invoices LIMIT 500]: the identifier in
    its quoted canonical spelling, and the default row cap behind. *)
Theorem sanitize_sql_example `{UnicodeDB} :
  sanitize_sql (py "SELECT vendorid FROM invoices")
  = Ok (py "SELECT " ++ [34%N] ++ py "vendorId" ++ [34%N]
        ++ py " FROM invoices LIMIT 500").
Proof. vm_compute. reflexivity. Qed.

(** C7.  The clean-up of the completion takes away only white space, an
    opening fence (three backticks and the letters of a language tag) at
    the start of the trimmed text, and a closing fence of three backticks
    at its end: what it returns stands in the completion as it is,
    backticks inside included.  The fenced completion of the example
    comes out as exactly "SELECT 1", and a completion with three backticks
    in a string literal keeps them. *)
Theorem strip_fences_ends_only `{UnicodeDB} :
  (forall content : pystr,
     exists ws0 open ws1 ws2 close ws3,
       content = ws0 ++ open ++ ws1 ++ strip_fences content ++ ws2 ++ close ++ ws3
       /\ forallb isspace (ws0 ++ ws1 ++ ws2 ++ ws3) = true
       /\ (open = [] \/ exists tag, open = py "```" ++ tag
                                    /\ forallb ascii_letter tag = true)
       /\ (close = [] \/ close = py "```"))
  /\ llm_generate_sql
       (Replied
          {| r_status := 200; r_text := [];
             r_json :=
               Some (JObj [(py "choices",
                      JArr [JObj [(py "message",
                             JObj [(py "content",
                                    JStr (py "```sql" ++ [newline] ++ py "SELECT 1"
                                          ++ [newline] ++ py "```"))])]])]) |})
     = Returned (py "SELECT 1")
  /\ strip_fences (py "```sql" ++ [newline] ++ py "SELECT '```' AS fence"
                   ++ [newline] ++ py "```")
     = py "SELECT '```' AS fence".
Proof.
  split; [exact strip_fences_split|].
  split; vm_compute; reflexivity.
Qed.

(** C9, as the claim has it, fails: not every spelling of a key is
    replaced.  [re.sub] replaces matches that do not overlap, from the
    left, and the keys have their turns one after the other: in
    "totalamountotalvalue" the turn of "totalamount" takes the letter
    "t" that "totalvalue" starts with, and the quoted "totalValue" is not
    in the result. *)
Lemma fix_step_inside_words_counterexample :
  ~ (forall (sql : pystr) (fx : string * string),
       In fx fixes -> spelled_in (py (fst fx)) sql ->
       ~ has_keyword (H := latin_db) DANGEROUS_words sql ->
       has_keyword (H := latin_db) ["SELECT"%string] sql ->
       exists out a b,
         @sanitize_sql latin_db sql = Ok out
         /\ out = a ++ [34%N] ++ py (snd fx) ++ [34%N] ++ b).
Proof.
  intros Hall.
  destruct (Hall (py "select totalamountotalvalue from t")
              ("totalvalue", "totalValue")%string) as (out & a & b & Hout & E).
  - simpl. tauto.
  - apply spelled_inb_iff. vm_compute. reflexivity.
  - apply (re_search_keyword_false (H := latin_db)). vm_compute. reflexivity.
  - apply (re_search_keyword (H := latin_db)). vm_compute. reflexivity.
  - assert (Hsp : spelled_in (py "totalvalue") out).
    { exists (a ++ [34%N]), (py "totalValue"), ([34%N] ++ b). split; [|reflexivity].
      rewrite E. simpl. now rewrite <- !app_assoc. }
    assert (Hres : @sanitize_sql latin_db (py "select totalamountotalvalue from t")
                   = Ok (py "select " ++ [34%N] ++ py "totalAmount" ++ [34%N]
                         ++ py "otalvalue from t LIMIT 500"))
      by (vm_compute; reflexivity).
    rewrite Hres in Hout. injection Hout as <-.
    apply spelled_inb_iff in Hsp. vm_compute in Hsp. discriminate Hsp.
Qed.

(** C9, amended.  The fixes look for their keys without word boundaries:
    in the turn of a key its leftmost spelling, in any casing, is replaced
    by the canonical spelling between double quotes whatever stands before
    and after it, letters of a longer identifier too, and the turn goes on
    in the same way in the text behind that spelling.  So "vendoridentity"
    comes out with the quoted replacement inside the word. *)
Theorem fix_step_inside_words `{UnicodeDB} :
  (forall fx pre w post,
     In fx fixes -> spells (py (fst fx)) w = true ->
     none_starts_in (py (fst fx)) pre (w ++ post) = true ->
     fix_step (pre ++ w ++ post) fx
     = pre ++ [34%N] ++ py (snd fx) ++ [34%N] ++ fix_step post fx)
  /\ sanitize_sql (py "SELECT vendoridentity FROM t")
     = Ok (py "SELECT " ++ [34%N] ++ py "vendorId" ++ [34%N]
           ++ py "entity FROM t LIMIT 500").
Proof.
  split; [|vm_compute; reflexivity].
  intros fx pre w post Hin Hw Hno. rewrite !fix_step_subst.
  rewrite subst_i_first; [|simpl in Hin; intuition (subst; discriminate)
                          |exact Hw|exact Hno].
  unfold quoted. simpl. now rewrite <- !app_assoc.
Qed.

Lemma fix_step_inside_words_witness :
  @fix_step latin_db (py "my" ++ py "VendorID" ++ py "entity")
    ("vendorid", "vendorId")%string
  = py "my" ++ [34%N] ++ py "vendorId" ++ [34%N] ++ py "entity".
Proof.
  refine (proj1 (@fix_step_inside_words latin_db)
            ("vendorid", "vendorId")%string (py "my") (py "VendorID")
            (py "entity") _ _ _).
  - simpl. tauto.
  - vm_compute. reflexivity.
  - vm_compute. reflexivity.
Defined.

(** C10.  [sanitize_sql] does not hold the input to one statement: on the
    way that appends the row cap only the semicolons at the very end go.
    "SELECT 1; SELECT 2" keeps its semicolon and gets " LIMIT 500" behind
    the second statement. *)
Theorem sanitize_sql_keeps_inner_semicolon `{UnicodeDB} :
  sanitize_sql (py "SELECT 1; SELECT 2") = Ok (py "SELECT 1; SELECT 2 LIMIT 500")
  /\ forall sql : pystr,
       re_search LIMIT_re sql = false ->
       exists body n,
         strip sql = body ++ repeat semicolon n
         /\ (forall c, last_opt body = Some c -> c <> semicolon)
         /\ add_limit sql = body ++ py " LIMIT 500".
Proof.
  split; [vm_compute; reflexivity|].
  intros sql Hl. destruct (rstrip_semicolon_split (strip sql)) as (n & En).
  exists (rstrip [semicolon] (strip sql)), n. split; [exact En|]. split.
  - intros c. apply rstrip_semicolon_last.
  - unfold add_limit. now rewrite Hl.
Qed.

Lemma sanitize_sql_keeps_inner_semicolon_witness :
  exists body n,
    strip (py " SELECT 1; SELECT 2;; ") = body ++ repeat semicolon n
    /\ (forall c, last_opt body = Some c -> c <> semicolon)
    /\ @add_limit latin_db (py " SELECT 1; SELECT 2;; ") = body ++ py " LIMIT 500".
Proof.
  refine (proj2 (@sanitize_sql_keeps_inner_semicolon latin_db)
            (py " SELECT 1; SELECT 2;; ") _).
  vm_compute. reflexivity.
Defined.

(* ================================================================= *)
(** ** Keywords and the parts of a text *)

Section KeywordParts.
Context `{UnicodeDB}.

Lemma plain_keywords_In kws kw :
  plain_keywords kws = true -> In kw kws ->
  forallb ascii_letter (py kw) = true /\ kw <> ""%string.
Proof.
  unfold plain_keywords. rewrite forallb_forall. intros Hall Hin.
  specialize (Hall kw Hin). apply andb_true_iff in Hall as [Hl Hn].
  split; [exact Hl|]. intros ->. discriminate.
Qed.

(** With plain keywords, an occurrence is a spelling with no character of
    a word before it and none after it. *)
Lemma has_keyword_neighbours kws s :
  plain_keywords kws = true ->
  has_keyword kws s <->
  exists kw pre w post,
    In kw kws /\ s = pre ++ w ++ post /\ spells (py kw) w = true
    /\ word_opt (last_opt pre) = false /\ word_opt (hd_error post) = false.
Proof.
  intros Hp. unfold has_keyword. split.
  - intros (kw & pre & w & post & Hin & Hs & Ho).
    destruct (@plain_keywords_In kws kw Hp Hin) as [Hl Hn].
    apply occurrence_neighbours in Ho; [|exact Hl|exact Hn].
    now exists kw, pre, w, post.
  - intros (kw & pre & w & post & Hin & Hs & Ho).
    destruct (@plain_keywords_In kws kw Hp Hin) as [Hl Hn].
    apply occurrence_neighbours in Ho; [|exact Hl|exact Hn].
    now exists kw, pre, w, post.
Qed.

Lemma spells_plain kw w :
  forallb ascii_letter (py kw) = true -> kw <> ""%string ->
  spells (py kw) w = true -> w <> [] /\ forallb is_word w = true.
Proof.
  intros Hl Hn Hs. split; [|now apply (spells_all_word _ Hl)].
  intros ->. destruct kw; [congruence|discriminate].
Qed.

Lemma all_word_head a :
  a <> [] -> forallb is_word a = true -> word_opt (hd_error a) = true.
Proof.
  destruct a as [|c a]; [congruence|]. simpl.
  now intros _ [Hc _]%andb_true_iff.
Qed.

Lemma word_opt_last_keep (a l : pystr) :
  word_opt (last_opt (a ++ l)) = false -> word_opt (last_opt l) = false.
Proof.
  destruct l as [|c l]; [reflexivity|]. now rewrite last_opt_app_cons.
Qed.

Lemma word_opt_head_keep (m b : pystr) :
  word_opt (hd_error (m ++ b)) = false -> word_opt (hd_error m) = false.
Proof. now destruct m. Qed.

(** Where two parts meet with a character not of a word on one side at
    least, the keywords of the whole are those of the parts. *)
Lemma has_keyword_split kws a b :
  plain_keywords kws = true ->
  word_opt (last_opt a) = false \/ word_opt (hd_error b) = false ->
  has_keyword kws (a ++ b) <-> has_keyword kws a \/ has_keyword kws b.
Proof.
  intros Hp Hj. rewrite !has_keyword_neighbours by exact Hp. split.
  - intros (kw & pre & w & post & Hin & Hs & Hw & Hpre & Hpost).
    destruct (@plain_keywords_In kws kw Hp Hin) as [Hl Hn].
    destruct (@spells_plain kw w Hl Hn Hw) as [Hne Hall].
    symmetry in Hs. apply app_eq_app in Hs as (l & [[-> ->]|[-> Hs]]).
    + right. exists kw, l, w, post.
      repeat split; auto. now apply word_opt_last_keep in Hpre.
    + apply app_eq_app in Hs as (m & [[-> ->]|[-> ->]]).
      * destruct l as [|c l].
        { right. exists kw, [], m, post. simpl in *. now repeat split. }
        destruct m as [|d m].
        { left. exists kw, pre, (c :: l), []. rewrite !app_nil_r in *.
          now repeat split. }
        exfalso. rewrite forallb_app in Hall.
        apply andb_true_iff in Hall as [Hall1 Hall2].
        destruct Hj as [Hj|Hj].
        -- rewrite last_opt_app_cons in Hj.
           rewrite all_word_last in Hj; [discriminate|discriminate|exact Hall1].
        -- simpl in Hj, Hall2. apply andb_true_iff in Hall2 as [Hd _].
           congruence.
      * left. exists kw, pre, w, m.
        repeat split; auto. now apply word_opt_head_keep in Hpost.
  - intros [(kw & pre & w & post & Hin & -> & Hw & Hpre & Hpost)
           |(kw & pre & w & post & Hin & -> & Hw & Hpre & Hpost)];
      destruct (@plain_keywords_In kws kw Hp Hin) as [Hl Hn];
      destruct (@spells_plain kw w Hl Hn Hw) as [Hne Hall];
      (destruct w as [|d w]; [congruence|]);
      pose proof Hall as Hd; simpl in Hd; apply andb_true_iff in Hd as [Hd _].
    + exists kw, pre, (d :: w), (post ++ b). rewrite <- !app_assoc.
      repeat split; auto. destruct post as [|c post]; [|exact Hpost].
      simpl. destruct Hj as [Hj|Hj]; [|exact Hj]. exfalso.
      rewrite app_nil_r, last_opt_app_cons in Hj.
      rewrite all_word_last in Hj; [discriminate|discriminate|exact Hall].
    + exists kw, (a ++ pre), (d :: w), post. rewrite <- !app_assoc.
      repeat split; auto. destruct pre as [|c pre].
      * rewrite app_nil_r. destruct Hj as [Hj|Hj]; [exact Hj|]. exfalso.
        simpl in Hj. congruence.
      * now rewrite last_opt_app_cons.
Qed.

(** A text without a character of a word holds no keyword. *)
Lemma has_keyword_non_word kws s :
  plain_keywords kws = true -> forallb non_word s = true -> ~ has_keyword kws s.
Proof.
  intros Hp Hs. rewrite has_keyword_neighbours by exact Hp.
  intros (kw & pre & w & post & Hin & -> & Hw & _).
  destruct (@plain_keywords_In kws kw Hp Hin) as [Hl Hn].
  destruct (@spells_plain kw w Hl Hn Hw) as [Hne Hall].
  destruct w as [|d w]; [congruence|].
  rewrite !forallb_app in Hs. simpl in Hs, Hall. unfold non_word in Hs.
  apply andb_true_iff in Hall as [Hd _]. rewrite Hd in Hs. simpl in Hs.
  now rewrite andb_false_r in Hs.
Qed.

(** Characters not of a word around a text add no keyword and take none
    away. *)
Lemma has_keyword_padded kws l s r :
  plain_keywords kws = true ->
  forallb non_word l = true -> forallb non_word r = true ->
  has_keyword kws (l ++ s ++ r) <-> has_keyword kws s.
Proof.
  intros Hp Hl Hr.
  rewrite has_keyword_split by (auto using non_word_last).
  rewrite has_keyword_split by (auto using non_word_head).
  pose proof (@has_keyword_non_word kws l Hp Hl). pose proof (@has_keyword_non_word kws r Hp Hr).
  tauto.
Qed.

End KeywordParts.

(* ================================================================= *)
(** ** What a sanitized text holds *)

Lemma spelled_in_part kw (l s r : pystr) :
  spelled_in kw s -> spelled_in kw (l ++ s ++ r).
Proof.
  intros (a & w & b & -> & Hw). exists (l ++ a), w, (b ++ r).
  split; [now rewrite <- !app_assoc|exact Hw].
Qed.

Section SanitizedFacts.
Context `{UnicodeDB}.

Lemma fixes_spare_short w : List.length w < 8 -> fixes_spare w fixes.
Proof.
  intros Hl. unfold fixes_spare, fixes.
  repeat (apply Forall_cons; [split; [reflexivity|simpl; lia]|]).
  apply Forall_nil.
Qed.

(** The fixes leave in place an occurrence of a keyword shorter than
    their keys. *)
Lemma has_keyword_fixes kws s :
  plain_keywords kws = true ->
  Forall (fun kw => List.length (py kw) < 8) kws ->
  has_keyword kws s -> has_keyword kws (apply_fixes s).
Proof.
  intros Hp Hshort. rewrite !has_keyword_neighbours by exact Hp.
  intros (kw & pre & w & post & Hin & -> & Hw & Hpre & Hpost).
  rewrite Forall_forall in Hshort. specialize (Hshort kw Hin).
  rewrite <- (spells_length _ _ Hw) in Hshort.
  pose proof (fixes_spare_short w Hshort) as Hsp.
  exists kw, (apply_fixes pre), w, (apply_fixes post).
  split; [exact Hin|]. split; [now apply fold_fix_guarded|].
  split; [exact Hw|]. unfold apply_fixes. clear Hw Hin Hshort.
  revert pre post Hpre Hpost.
  induction Hsp as [|fx fxs [Hk Hl] _ IH]; intros pre post Hpre Hpost; [now split|].
  assert (Hne : py (fst fx) <> []) by (intros E; rewrite E in Hl; simpl in Hl; lia).
  simpl. rewrite !fix_step_subst. apply IH.
  - now apply subst_i_last.
  - apply subst_i_head; auto using quoted_head.
Qed.

Lemma body_split sql :
  exists l r, sql = l ++ rstrip [semicolon] (strip sql) ++ r
              /\ forallb non_word l = true /\ forallb non_word r = true.
Proof.
  destruct (strip_split sql) as (l & r & E & Hl & Hr).
  destruct (rstrip_semicolon_split (strip sql)) as (n & En).
  exists l, (repeat semicolon n ++ r). split; [|split].
  - rewrite E at 1. rewrite En at 1. now rewrite <- app_assoc.
  - now apply spaces_non_word.
  - rewrite forallb_app, semicolons_non_word. now apply spaces_non_word.
Qed.

(** The keywords of [add_limit sql]: those of [sql], and where the cap is
    appended those of the cap. *)
Lemma add_limit_keywords kws sql :
  plain_keywords kws = true ->
  has_keyword kws (add_limit sql) <->
  has_keyword kws sql
  \/ (re_search LIMIT_re sql = false /\ has_keyword kws (py " LIMIT 500")).
Proof.
  intros Hp. unfold add_limit. destruct (re_search LIMIT_re sql); simpl.
  - split; [now left|]. now intros [Hk|[Hf _]].
  - rewrite has_keyword_split by (exact Hp || now right).
    destruct (body_split sql) as (l & r & E & Hl & Hr).
    pose proof (@has_keyword_padded _ kws l (rstrip [semicolon] (strip sql)) r
                  Hp Hl Hr) as Hpad.
    rewrite <- E in Hpad. intuition.
Qed.

Lemma add_limit_has_limit sql : has_keyword ["LIMIT"%string] (add_limit sql).
Proof.
  apply add_limit_keywords; [reflexivity|].
  destruct (re_search LIMIT_re sql) eqn:Hl.
  - left. now apply re_search_keyword.
  - right. split; [reflexivity|]. apply re_search_keyword. vm_compute. reflexivity.
Qed.

Lemma add_limit_twice sql : add_limit (add_limit sql) = add_limit sql.
Proof.
  pose proof (add_limit_has_limit sql) as Hl. apply re_search_keyword in Hl.
  unfold add_limit at 1. fold LIMIT_re in Hl. now rewrite Hl.
Qed.

Lemma add_limit_dangerous sql :
  has_keyword DANGEROUS_words (add_limit sql) <-> has_keyword DANGEROUS_words sql.
Proof.
  rewrite add_limit_keywords by reflexivity. split; [|now left].
  intros [Hk|[_ Hk]]; [exact Hk|]. exfalso.
  apply re_search_keyword in Hk. vm_compute in Hk. discriminate Hk.
Qed.

Lemma sanitize_sql_Ok sql out :
  sanitize_sql sql = Ok out <->
  ~ has_keyword DANGEROUS_words sql /\ has_keyword ["SELECT"%string] sql
  /\ out = add_limit (apply_fixes sql).
Proof.
  unfold sanitize_sql.
  rewrite <- (re_search_keyword_false DANGEROUS_words), <- re_search_keyword.
  fold DANGEROUS SELECT_re.
  destruct (re_search DANGEROUS sql), (re_search SELECT_re sql); simpl;
    split; try discriminate; try (now intros (? & ? & ?)).
  - now intros [= <-].
  - now intros (_ & _ & ->).
Qed.

(** Across a point with a character not of a word on its right, no key
    is spelled that is not spelled on one side. *)
Lemma spelled_in_split kw a b :
  forallb ascii_letter kw = true ->
  word_opt (hd_error b) = false ->
  spelled_in kw (a ++ b) -> spelled_in kw a \/ spelled_in kw b.
Proof.
  intros Hk Hb (x & w & y & Hs & Hw).
  pose proof (spells_all_word _ Hk _ Hw) as Hall.
  symmetry in Hs. apply app_eq_app in Hs as (l & [[-> ->]|[-> Hs]]).
  - right. now exists l, w, y.
  - apply app_eq_app in Hs as (m & [[-> ->]|[-> ->]]).
    + destruct m as [|d m].
      * left. rewrite app_nil_r in *. exists x, l, []. now rewrite app_nil_r.
      * exfalso. rewrite forallb_app in Hall.
        apply andb_true_iff in Hall as [_ Hall]. simpl in Hall, Hb.
        apply andb_true_iff in Hall as [Hd _]. congruence.
    + left. now exists x, w, m.
Qed.

Lemma no_fix_key_add_limit sql :
  no_fix_key sql = true -> no_fix_key (add_limit sql) = true.
Proof.
  intros Hno. unfold add_limit. destruct (re_search LIMIT_re sql); [exact Hno|].
  simpl. unfold no_fix_key in *. rewrite forallb_forall in *.
  intros fx Hin. specialize (Hno fx Hin).
  apply negb_true_iff in Hno. apply negb_true_iff.
  destruct (spelled_inb (py (fst fx)) (rstrip [semicolon] (strip sql) ++ py " LIMIT 500"))
    eqn:Hsp; [|reflexivity].
  exfalso. apply spelled_inb_iff in Hsp.
  apply spelled_in_split in Hsp as [Hsp|Hsp].
  - destruct (body_split sql) as (l & r & E & _).
    apply (spelled_in_part l r) in Hsp. rewrite <- E in Hsp.
    apply spelled_inb_iff in Hsp. congruence.
  - apply spelled_inb_iff in Hsp. simpl in Hin.
    repeat (destruct Hin as [<-|Hin]; [vm_compute in Hsp; discriminate Hsp|]).
    exact Hin.
  - simpl in Hin.
    repeat (destruct Hin as [<-|Hin]; [reflexivity|]). destruct Hin.
  - reflexivity.
Qed.

End SanitizedFacts.

(* ================================================================= *)
(** ** Trimmed text and text without fences *)

Lemma lstrip_by_id p s :
  (forall c, hd_error s = Some c -> p c = false) -> lstrip_by p s = s.
Proof.
  destruct s as [|c t]; [reflexivity|]. intros Hh. simpl.
  now rewrite (Hh c eq_refl).
Qed.

Lemma rstrip_by_id p s :
  (forall c, last_opt s = Some c -> p c = false) -> rstrip_by p s = s.
Proof.
  intros Hl. unfold rstrip_by. rewrite lstrip_by_id.
  - apply rev_involutive.
  - intros c Hc. apply Hl. now rewrite <- hd_error_rev.
Qed.

Lemma strip_head s c : hd_error (strip s) = Some c -> isspace c = false.
Proof.
  unfold strip. intros Hh.
  destruct (rstrip_by_split isspace (lstrip_by isspace s)) as (r & Hr & _).
  apply (lstrip_by_head isspace s). rewrite Hr.
  destruct (rstrip_by isspace (lstrip_by isspace s)); [discriminate|exact Hh].
Qed.

Lemma strip_id s :
  (forall c, hd_error s = Some c -> isspace c = false) ->
  (forall c, last_opt s = Some c -> isspace c = false) ->
  strip s = s.
Proof.
  intros Hh Hl. unfold strip. rewrite (lstrip_by_id isspace s Hh).
  now apply rstrip_by_id.
Qed.

Lemma strip_strip s : strip (strip s) = strip s.
Proof. apply strip_id; intros c; [apply strip_head|apply strip_last]. Qed.

Section PlainFacts.
Context `{UnicodeDB}.

Lemma re_sub_fence_open_plain s :
  ~ In backtick s -> re_sub FENCE_OPEN [] s = s.
Proof.
  intros Hno. destruct (re_sub_fence_open s) as (f & E & [->|(tag & -> & _)]).
  - now rewrite E at 2.
  - exfalso. apply Hno. rewrite E. now left.
Qed.

Lemma re_sub_fence_close_plain s :
  (forall c, last_opt s = Some c -> c <> newline) ->
  ~ In backtick s -> re_sub FENCE_CLOSE [] s = s.
Proof.
  intros Hl Hno. destruct (sub_from_fence_close s None Hl) as (g & E & [->| ->]).
  - rewrite app_nil_r in E. now rewrite E at 2.
  - exfalso. apply Hno. rewrite E. apply in_or_app. right. now left.
Qed.

End PlainFacts.

(* ================================================================= *)
(** ** Grouping the columns *)

Lemma str_eqb_eq a : forall b, str_eqb a b = true <-> a = b.
Proof.
  induction a as [|x a IH]; intros [|y b]; simpl; split; try congruence.
  - intros [Hx Hab]%andb_true_iff. apply N.eqb_eq in Hx. apply IH in Hab.
    congruence.
  - intros [= -> ->]. rewrite N.eqb_refl. now apply IH.
Qed.

Lemma str_eqb_refl a : str_eqb a a = true.
Proof. now apply str_eqb_eq. Qed.

Lemma str_eqb_neq a b : str_eqb a b = false <-> a <> b.
Proof.
  rewrite <- str_eqb_eq. now destruct (str_eqb a b).
Qed.

Lemma first_seen_In names x : In x (first_seen names) <-> In x names.
Proof.
  induction names as [|y t IH]; [reflexivity|]. simpl.
  rewrite filter_In, IH, negb_true_iff, str_eqb_neq. split.
  - intros [->|[Hx _]]; auto.
  - intros [->|Hx]; [now left|].
    destruct (str_eqb x y) eqn:E.
    + apply str_eqb_eq in E. auto.
    + apply str_eqb_neq in E. auto.
Qed.

Lemma first_seen_NoDup names : NoDup (first_seen names).
Proof.
  induction names as [|y t IH]; simpl; constructor.
  - rewrite filter_In, str_eqb_refl. now intros [_ Hf].
  - now apply NoDup_filter.
Qed.

Lemma filter_id_In (p : pystr -> bool) l :
  (forall x, In x l -> p x = true) -> filter p l = l.
Proof.
  induction l as [|x l IH]; intros Hp; [reflexivity|]. simpl.
  rewrite (Hp x (or_introl eq_refl)). f_equal. apply IH.
  intros y Hy. apply Hp. now right.
Qed.

(** The order of first appearance grows at its end. *)
Lemma first_seen_snoc names x :
  first_seen (names ++ [x])
  = first_seen names ++ (if existsb (fun y => str_eqb y x) names then [] else [x]).
Proof.
  induction names as [|y t IH]; [reflexivity|].
  simpl. rewrite IH, filter_app. f_equal. f_equal.
  destruct (str_eqb y x) eqn:Eyx; simpl.
  - apply str_eqb_eq in Eyx. subst y.
    destruct (existsb (fun y => str_eqb y x) t); [reflexivity|].
    simpl. now rewrite str_eqb_refl.
  - destruct (existsb (fun y => str_eqb y x) t); [reflexivity|].
    simpl. replace (str_eqb x y) with false; [reflexivity|].
    symmetry. apply str_eqb_neq. apply str_eqb_neq in Eyx. congruence.
Qed.

Lemma columns_of_snoc rows r t :
  columns_of (rows ++ [r]) t
  = columns_of rows t ++ (if str_eqb (table_name r) t then [column_text r] else []).
Proof.
  unfold columns_of. rewrite filter_app, map_app. simpl.
  now destruct (str_eqb (table_name r) t).
Qed.

Lemma columns_of_absent rows t :
  ~ In t (map table_name rows) -> columns_of rows t = [].
Proof.
  unfold columns_of. induction rows as [|r rows IH]; intros Hno; [reflexivity|].
  simpl in *. destruct (str_eqb (table_name r) t) eqn:E.
  - apply str_eqb_eq in E. tauto.
  - apply IH. tauto.
Qed.

(** [setdefault(k, []).append(v)] on a dict with distinct keys, in terms of
    its keys and of the value each key has. *)
Lemma setdefault_append_map (f : pystr -> list pystr) k v : forall keys,
  NoDup keys ->
  setdefault_append (map (fun t => (t, f t)) keys) k v
  = map (fun t => (t, f t ++ (if str_eqb k t then [v] else [])))
        keys
    ++ (if existsb (fun y => str_eqb y k) keys then [] else [(k, [v])]).
Proof.
  induction keys as [|t keys IH]; intros Hnd; [reflexivity|].
  inversion Hnd as [|? ? Hnot Hnd']; subst. simpl.
  destruct (str_eqb t k) eqn:E.
  - apply str_eqb_eq in E. subst t. rewrite str_eqb_refl. simpl.
    rewrite app_nil_r. f_equal. apply map_ext_in.
    intros t Ht. replace (str_eqb k t) with false; [now rewrite app_nil_r|].
    symmetry. apply str_eqb_neq. intros ->. contradiction.
  - simpl. replace (str_eqb k t) with false.
    + rewrite app_nil_r. f_equal. now apply IH.
    + symmetry. apply str_eqb_neq. apply str_eqb_neq in E. congruence.
Qed.

Lemma group_columns_snoc rows r :
  group_columns (rows ++ [r])
  = setdefault_append (group_columns rows) (table_name r) (column_text r).
Proof. unfold group_columns. now rewrite fold_left_app. Qed.

Lemma existsb_names_In names k :
  existsb (fun y => str_eqb y k) names = true <-> In k names.
Proof.
  rewrite existsb_exists. split.
  - intros (y & Hy & E). apply str_eqb_eq in E. now subst.
  - intros Hk. exists k. now rewrite str_eqb_refl.
Qed.

(** The dict the loop builds: the tables in the order of their first row,
    each with the texts of its columns in the order of the rows. *)
Lemma group_columns_spec rows :
  group_columns rows
  = map (fun t => (t, columns_of rows t)) (first_seen (map table_name rows)).
Proof.
  induction rows as [|r rows IH] using rev_ind; [reflexivity|].
  rewrite group_columns_snoc, IH, map_app. simpl map.
  rewrite first_seen_snoc, map_app.
  rewrite setdefault_append_map by apply first_seen_NoDup.
  f_equal.
  - apply map_ext. intros t. now rewrite columns_of_snoc.
  - assert (Hex : existsb (fun y => str_eqb y (table_name r))
                    (first_seen (map table_name rows))
                  = existsb (fun y => str_eqb y (table_name r)) (map table_name rows)).
    { apply eq_true_iff_eq. now rewrite !existsb_names_In, first_seen_In. }
    rewrite Hex.
    destruct (existsb (fun y => str_eqb y (table_name r)) (map table_name rows)) eqn:E;
      [reflexivity|].
    simpl. rewrite columns_of_snoc, str_eqb_refl, columns_of_absent; [reflexivity|].
    intros Hin. apply existsb_names_In in Hin. congruence.
Qed.

Lemma lstrip_by_app p (a b : pystr) :
  lstrip_by p (a ++ b)
  = if forallb p a then lstrip_by p b else lstrip_by p a ++ b.
Proof.
  induction a as [|c a IH]; [reflexivity|]. simpl.
  destruct (p c); [exact IH|reflexivity].
Qed.

Lemma lstrip_by_all p (a : pystr) : forallb p a = true -> lstrip_by p a = [].
Proof.
  induction a as [|c a IH]; [reflexivity|]. simpl.
  intros [Hc Ha]%andb_true_iff. rewrite Hc. now apply IH.
Qed.

Lemma rstrip_by_app_all p (a ws : pystr) :
  forallb p ws = true -> rstrip_by p (a ++ ws) = rstrip_by p a.
Proof.
  intros Hws. unfold rstrip_by. rewrite rev_app_distr, lstrip_by_app.
  now rewrite forallb_rev, Hws.
Qed.

(** White space around a text does not show in what [strip] returns. *)
Lemma strip_padded (l a r : pystr) :
  forallb isspace l = true -> forallb isspace r = true ->
  strip (l ++ a ++ r) = strip a.
Proof.
  intros Hl Hr. unfold strip. rewrite lstrip_by_app, Hl, lstrip_by_app.
  destruct (forallb isspace a) eqn:Ha.
  - rewrite (lstrip_by_all _ _ Hr), (lstrip_by_all _ _ Ha). reflexivity.
  - now apply rstrip_by_app_all.
Qed.

Section FencedFacts.
Context `{UnicodeDB}.

Lemma re_sub_fence_open_eq t :
  re_sub FENCE_OPEN [] (py "```" ++ t) = lstrip_by ascii_letter t.
Proof.
  unfold re_sub. change (py "```" ++ t) with (backtick :: backtick :: backtick :: t).
  remember (backtick :: backtick :: t) as s' eqn:Hs'.
  cbn [sub_from]. subst s'. rewrite match_here_fence_open, !N.eqb_refl.
  cbn [andb].
  destruct (lstrip_by_split ascii_letter t) as (tag & Ht & _).
  remember (lstrip_by ascii_letter t) as rest eqn:Hrest. clear Hrest. subst t.
  replace (List.length (backtick :: backtick :: backtick :: tag ++ rest)
           - List.length rest) with (S (2 + List.length tag))
    by (cbn [List.length]; rewrite length_app; lia).
  unfold FENCE_OPEN. rewrite sub_from_bol.
  cbn [Nat.add skipn]. rewrite skipn_app, skipn_all, Nat.sub_diag.
  reflexivity.
Qed.

Lemma sub_from_fence_close_end : forall x p,
  ~ In backtick x -> sub_from FENCE_CLOSE [] p (x ++ py "```") 0 = x.
Proof.
  induction x as [|c x IH]; intros p Hno.
  - reflexivity.
  - assert (Hc : (c =? 96)%N = false).
    { apply N.eqb_neq. intros ->. apply Hno. now left. }
    simpl app. cbn [sub_from].
    replace (match_here FENCE_CLOSE p (c :: x ++ py "```")) with (@None pystr).
    + f_equal. apply IH. intros Hin. apply Hno. now right.
    + unfold match_here, FENCE_CLOSE. simpl. now rewrite Hc.
Qed.

End FencedFacts.


(* ================================================================= *)
(** ** Further properties of the program *)

(** X1.  [sanitize_sql] lets a text through only if it holds SELECT and
    none of the blocked keywords, between word boundaries and in any
    casing; what it raises otherwise is an HTTP 400. *)
Theorem sanitize_sql_gate `{UnicodeDB} (sql : pystr) :
  (forall out, sanitize_sql sql = Ok out ->
     ~ has_keyword DANGEROUS_words sql /\ has_keyword ["SELECT"%string] sql)
  /\ (forall e, sanitize_sql sql = Raise e ->
        status_code e = 400%N
        /\ (has_keyword DANGEROUS_words sql \/ ~ has_keyword ["SELECT"%string] sql)).
Proof.
  split.
  - intros out Ho. apply sanitize_sql_Ok in Ho. tauto.
  - intros e. unfold sanitize_sql.
    destruct (re_search DANGEROUS sql) eqn:Hd.
    + intros [= <-]. split; [reflexivity|]. left. now apply re_search_keyword.
    + destruct (re_search SELECT_re sql) eqn:Hs; simpl; [discriminate|].
      intros [= <-]. split; [reflexivity|]. right.
      now apply re_search_keyword_false.
Qed.

Lemma sanitize_sql_gate_witness :
  ~ has_keyword (H := latin_db) DANGEROUS_words (py "select 1")
  /\ has_keyword (H := latin_db) ["SELECT"%string] (py "select 1").
Proof.
  exact (proj1 (@sanitize_sql_gate latin_db (py "select 1"))
           (py "select 1 LIMIT 500") eq_refl).
Defined.

(** X2.  Whatever [sanitize_sql] returns holds a LIMIT and a SELECT
    between word boundaries. *)
Theorem sanitize_sql_result_holds `{UnicodeDB} (sql out : pystr) :
  sanitize_sql sql = Ok out ->
  has_keyword ["LIMIT"%string] out /\ has_keyword ["SELECT"%string] out.
Proof.
  intros Ho. apply sanitize_sql_Ok in Ho as (_ & Hs & ->). split.
  - apply add_limit_has_limit.
  - apply add_limit_keywords; [reflexivity|]. left.
    apply has_keyword_fixes; [reflexivity| |exact Hs].
    repeat constructor.
Qed.

Lemma sanitize_sql_result_holds_witness :
  has_keyword (H := latin_db) ["LIMIT"%string]
    (py "select " ++ quoted "invoiceId" ++ py " from invoices LIMIT 500")
  /\ has_keyword (H := latin_db) ["SELECT"%string]
       (py "select " ++ quoted "invoiceId" ++ py " from invoices LIMIT 500").
Proof.
  apply (@sanitize_sql_result_holds latin_db (py "select invoiceid from invoices;")).
  vm_compute. reflexivity.
Defined.

(** X3.  The row cap brings no blocked keyword: a result holds one exactly
    when the text holds one after the fixes.  A text that spells none of
    the keys of the fixes comes out without a blocked keyword. *)
Theorem sanitize_sql_result_blocked `{UnicodeDB} (sql out : pystr) :
  sanitize_sql sql = Ok out ->
  (has_keyword DANGEROUS_words out <-> has_keyword DANGEROUS_words (apply_fixes sql))
  /\ (no_fix_key sql = true -> ~ has_keyword DANGEROUS_words out).
Proof.
  intros Ho. apply sanitize_sql_Ok in Ho as (Hd & _ & ->).
  split; [apply add_limit_dangerous|].
  intros Hno. rewrite add_limit_dangerous, (apply_fixes_none _ Hno). exact Hd.
Qed.

Lemma sanitize_sql_result_blocked_witness :
  ~ has_keyword (H := latin_db) DANGEROUS_words (py "select dropped from t LIMIT 500").
Proof.
  refine (proj2 (@sanitize_sql_result_blocked latin_db
                   (py "select dropped from t;") _ _) _).
  - vm_compute. reflexivity.
  - vm_compute. reflexivity.
Defined.

(** X4.  The row cap is put on once: [add_limit] applied to its own result
    changes nothing. *)
Theorem add_limit_idempotent `{UnicodeDB} (sql : pystr) :
  add_limit (add_limit sql) = add_limit sql.
Proof. apply add_limit_twice. Qed.

(** X5.  On a text that spells none of the keys of the fixes,
    [sanitize_sql] is idempotent: its result passes again and comes back
    as it is. *)
Theorem sanitize_sql_idempotent_plain `{UnicodeDB} (sql out : pystr) :
  no_fix_key sql = true ->
  sanitize_sql sql = Ok out -> sanitize_sql out = Ok out.
Proof.
  intros Hno Ho. apply sanitize_sql_Ok in Ho as (Hd & Hs & ->).
  rewrite (apply_fixes_none _ Hno) in *.
  apply sanitize_sql_Ok. split; [|split].
  - now rewrite add_limit_dangerous.
  - apply add_limit_keywords; [reflexivity|now left].
  - rewrite (apply_fixes_none _ (no_fix_key_add_limit _ Hno)).
    now rewrite add_limit_twice.
Qed.

Lemma sanitize_sql_idempotent_plain_witness :
  @sanitize_sql latin_db (py "select id from invoices LIMIT 500")
  = Ok (py "select id from invoices LIMIT 500").
Proof.
  apply (@sanitize_sql_idempotent_plain latin_db (py " select id from invoices; "));
    vm_compute; reflexivity.
Defined.

(** X6.  A text that passes the guards and spells none of the keys of the
    fixes comes back unchanged if it holds a LIMIT; if it holds none, it
    comes back stripped of white space at both ends and of the semicolons
    at its end, with " LIMIT 500" behind. *)
Theorem sanitize_sql_plain `{UnicodeDB} (sql : pystr) :
  no_fix_key sql = true ->
  ~ has_keyword DANGEROUS_words sql -> has_keyword ["SELECT"%string] sql ->
  (has_keyword ["LIMIT"%string] sql -> sanitize_sql sql = Ok sql)
  /\ (~ has_keyword ["LIMIT"%string] sql ->
      sanitize_sql sql = Ok (rstrip [semicolon] (strip sql) ++ py " LIMIT 500")).
Proof.
  intros Hno Hd Hs. rewrite (sanitize_sql_pass Hd Hs), (apply_fixes_none _ Hno).
  unfold add_limit, LIMIT_re. split; intros Hl.
  - apply re_search_keyword in Hl. now rewrite Hl.
  - apply re_search_keyword_false in Hl. now rewrite Hl.
Qed.

Lemma sanitize_sql_plain_witness :
  @sanitize_sql latin_db (py "select id from t limit 5") = Ok (py "select id from t limit 5").
Proof.
  refine (proj1 (@sanitize_sql_plain latin_db (py "select id from t limit 5") _ _ _) _).
  - vm_compute. reflexivity.
  - apply (re_search_keyword_false (H := latin_db)). vm_compute. reflexivity.
  - apply (re_search_keyword (H := latin_db)). vm_compute. reflexivity.
  - apply (re_search_keyword (H := latin_db)). vm_compute. reflexivity.
Defined.

(** X7.  A completion without a backtick is only trimmed by the clean-up
    of [llm_generate_sql]. *)
Theorem strip_fences_plain `{UnicodeDB} (content : pystr) :
  ~ In backtick content -> strip_fences content = strip content.
Proof.
  intros Hno. unfold strip_fences.
  assert (Hs : ~ In backtick (strip content)).
  { destruct (strip_split content) as (l & r & E & _). intros Hin. apply Hno.
    rewrite E. apply in_or_app. right. apply in_or_app. now left. }
  rewrite (re_sub_fence_open_plain _ Hs), strip_strip.
  rewrite re_sub_fence_close_plain; [apply strip_strip| |exact Hs].
  intros c Hc ->. now apply strip_last in Hc.
Qed.

Lemma strip_fences_plain_witness :
  @strip_fences latin_db (py "  SELECT 1; ") = py "SELECT 1;".
Proof.
  apply (@strip_fences_plain latin_db (py "  SELECT 1; ")).
  vm_compute. intuition discriminate.
Defined.

(** X8.  A completion that is a fence with a tag of letters, a newline, a
    text without backticks, a newline and a closing fence is reduced to
    that text, trimmed. *)
Theorem strip_fences_fenced `{UnicodeDB} (tag body : pystr) :
  forallb ascii_letter tag = true -> ~ In backtick body ->
  strip_fences (py "```" ++ tag ++ [newline] ++ body ++ [newline] ++ py "```")
  = strip body.
Proof.
  intros Htag Hno. unfold strip_fences.
  set (x := lstrip_by isspace (body ++ [newline])).
  assert (Hx : ~ In backtick x).
  { destruct (lstrip_by_split isspace (body ++ [newline])) as (l & E & _).
    fold x in E. intros Hin. assert (Hb : In backtick (body ++ [newline])).
    { rewrite E. apply in_or_app. now right. }
    apply in_app_or in Hb as [Hb|[Hb|[]]]; [now apply Hno|discriminate Hb]. }
  assert (Hlast : forall (a : pystr) c, last_opt (a ++ py "```") = Some c -> isspace c = false).
  { intros a c. change (py "```") with ([backtick; backtick] ++ [backtick]).
    rewrite app_assoc, last_opt_snoc. now intros [= <-]. }
  (* the first strip finds nothing to take *)
  rewrite (strip_id (py "```" ++ tag ++ [newline] ++ body ++ [newline] ++ py "```")).
  2:{ intros c [= <-]. reflexivity. }
  2:{ intros c. rewrite !app_assoc. apply Hlast. }
  (* the opening fence and its tag go *)
  rewrite re_sub_fence_open_eq, lstrip_by_app, Htag.
  change (lstrip_by ascii_letter ([newline] ++ body ++ [newline] ++ py "```"))
    with ([newline] ++ body ++ [newline] ++ py "```").
  (* the second strip takes the white space in front *)
  assert (Hs2 : strip ([newline] ++ body ++ [newline] ++ py "```") = x ++ py "```").
  { unfold strip. rewrite lstrip_by_app. simpl forallb.
    rewrite (app_assoc body), lstrip_by_app. fold x.
    destruct (forallb isspace (body ++ [newline])) eqn:Hall.
    - unfold x. rewrite (lstrip_by_all _ _ Hall). reflexivity.
    - apply rstrip_by_id. intros c. apply Hlast. }
  rewrite Hs2. unfold re_sub. rewrite (sub_from_fence_close_end _ None Hx).
  (* the last strip trims the text *)
  destruct (lstrip_by_split isspace (body ++ [newline])) as (l & E & Hl).
  fold x in E. rewrite <- (strip_padded l x [] Hl eq_refl), app_nil_r, <- E.
  now rewrite <- (strip_padded [] body [newline] eq_refl eq_refl).
Qed.

Lemma strip_fences_fenced_witness :
  @strip_fences latin_db
    (py "```" ++ py "postgres" ++ [newline] ++ py " SELECT 1; " ++ [newline] ++ py "```")
  = py "SELECT 1;".
Proof.
  apply (@strip_fences_fenced latin_db (py "postgres") (py " SELECT 1; ")).
  - reflexivity.
  - vm_compute. intuition discriminate.
Defined.

(** X9.  The schema text has one line for each table, in the order in
    which the tables first appear in the rows; the line of a table is its
    name and, in brackets and separated by ", ", its columns as
    "name type" in the order of the rows, wherever in the rows they
    stand. *)
Theorem snapshot_schema_lines (rows : list column) :
  snapshot_schema rows
  = join [newline]
      (map (fun t => t ++ py "(" ++ join (py ", ") (columns_of rows t) ++ py ")")
           (first_seen (map table_name rows))).
Proof.
  unfold snapshot_schema. rewrite group_columns_spec, map_map. reflexivity.
Qed.

(** X10.  Whatever the completion service and the database do, [nlq]
    calls [execute] not at all, or once with the switch to a read-only
    transaction, or with that switch and then once more; the text of that
    second call is what [sanitize_sql] returned for the generated text:
    it holds SELECT and LIMIT between word boundaries, and the generated
    text, as it came, held none of the blocked keywords. *)
Theorem nlq_executes_sanitized `{UnicodeDB} (row : Type)
  (llm : pystr -> posted) (db : database row) (question : pystr) :
  let ran := executed (snd (nlq llm db question)) in
  ran = [] \/ ran = [READ_ONLY]
  \/ exists generated sql,
       llm_generate_sql (llm question) = Returned generated
       /\ sanitize_sql generated = Ok sql
       /\ ran = [READ_ONLY; sql]
       /\ has_keyword ["SELECT"%string] sql /\ has_keyword ["LIMIT"%string] sql
       /\ ~ has_keyword DANGEROUS_words generated.
Proof.
  unfold nlq.
  destruct (llm_generate_sql (llm question)) as [generated|e|f] eqn:Hg;
    [|now left|now left].
  destruct (sanitize_sql generated) as [sql|e] eqn:Hs; [|now left].
  destruct (db_connect db); [now left|].
  destruct (db_execute db [] READ_ONLY); [right; now left|].
  assert (Hall : exists generated0 sql0,
             Returned generated = Returned generated0
             /\ sanitize_sql generated0 = Ok sql0
             /\ [READ_ONLY; sql] = [READ_ONLY; sql0]
             /\ has_keyword ["SELECT"%string] sql0 /\ has_keyword ["LIMIT"%string] sql0
             /\ ~ has_keyword DANGEROUS_words generated0).
  { exists generated, sql. pose proof Hs as Hs'.
    apply sanitize_sql_Ok in Hs' as (Hd & Hsel & ->).
    repeat split; auto.
    - apply add_limit_keywords; [reflexivity|]. left.
      apply has_keyword_fixes; [reflexivity| |exact Hsel]. repeat constructor.
    - apply add_limit_has_limit. }
  destruct (db_execute db [READ_ONLY] sql); [right; right; exact Hall|].
  destruct (db_commit db [READ_ONLY; sql]); right; right; exact Hall.
Qed.


(* ================================================================= *)
(** ** What the fixes change *)

Lemma lit_ignore_fold p c :
  ascii_letter p = true -> lit_ignore p c = true -> case_fold c = case_fold p.
Proof.
  unfold ascii_letter, lit_ignore, case_fold, ign_fixes, lower, in_range.
  cbn [existsb].
  repeat match goal with
         | |- context [N.leb ?a ?b] => destruct (N.leb_spec a b)
         | |- context [N.eqb ?a ?b] => destruct (N.eqb_spec a b)
         end; simpl in *; intros Hp Hc; try discriminate;
    repeat rewrite ?orb_true_iff, ?orb_false_r, ?N.eqb_eq in Hc;
    try discriminate; intuition lia.
Qed.

Lemma lit_ignore_cases p c :
  ascii_letter p = true -> lit_ignore p c = true ->
  (65 <= c <= 90)%N \/ (97 <= c <= 122)%N
  \/ c = 0x130%N \/ c = 0x212A%N \/ c = 0x131%N \/ c = 0x17F%N.
Proof.
  intros Hp Hc. unfold lit_ignore in Hc. cbn [existsb] in Hc.
  apply orb_true_iff in Hc as [Hc|Hc].
  - apply N.eqb_eq in Hc. pose proof (lower_letter p Hp) as Hl.
    rewrite <- Hc in Hl. apply lower_to_letter in Hl. tauto.
  - apply existsb_exists in Hc as (x & Hin & Hx). apply N.eqb_eq in Hx. subst x.
    apply lower_to_extra in Hin. tauto.
Qed.

Lemma lit_ignore_not_quote p c :
  ascii_letter p = true -> lit_ignore p c = true -> (c =? dquote)%N = false.
Proof.
  intros Hp Hc. apply N.eqb_neq. unfold dquote.
  pose proof (lit_ignore_cases p c Hp Hc). lia.
Qed.

Lemma spells_fold kw : forallb ascii_letter kw = true -> forall w,
  spells kw w = true ->
  map case_fold w = map case_fold kw /\ unquote w = w.
Proof.
  induction kw as [|p kw IH]; intros Hk [|c w] Hs; try discriminate; [now split|].
  simpl in Hk, Hs. apply andb_true_iff in Hk as [Hp Hk].
  apply andb_true_iff in Hs as [Hc Hs]. destruct (IH Hk w Hs) as [E1 E2].
  unfold unquote in *. simpl.
  rewrite (lit_ignore_fold _ _ Hp Hc), (lit_ignore_not_quote _ _ Hp Hc), E1.
  simpl. now rewrite E2.
Qed.

Lemma prefix_i_firstn kw : forall s,
  prefix_i kw s = true -> spells kw (firstn (List.length kw) s) = true.
Proof.
  induction kw as [|p kw IH]; intros s Hp; [reflexivity|].
  destruct s as [|c s]; [discriminate|]. simpl in *.
  apply andb_true_iff in Hp as [-> Hp]. now apply IH.
Qed.

Lemma unquote_app a b : unquote (a ++ b) = unquote a ++ unquote b.
Proof. apply filter_app. Qed.

(** Replacing the spellings of a word by another spelling of it between
    double quotes changes the text in its double quotes and in the case
    of its letters only. *)
Lemma subst_i_fold kw canon :
  forallb ascii_letter kw = true -> kw <> [] -> spells kw canon = true ->
  forall s n,
  map case_fold (unquote (subst_i kw (dquote :: canon ++ [dquote]) s n))
  = map case_fold (unquote (skipn n s)).
Proof.
  intros Hk Hne Hcanon. destruct (spells_fold kw Hk canon Hcanon) as [Ec Uc].
  induction s as [|c t IH]; intros n.
  - destruct n; [|reflexivity]. simpl. destruct kw; [congruence|reflexivity].
  - destruct n as [|n]; [|simpl; apply IH].
    cbn [subst_i skipn]. destruct (prefix_i kw (c :: t)) eqn:Hp.
    + destruct (List.length kw) as [|m] eqn:Hlen.
      { destruct kw; [congruence|discriminate]. }
      pose proof (prefix_i_firstn kw (c :: t) Hp) as Hw. rewrite Hlen in Hw.
      destruct (spells_fold kw Hk _ Hw) as [Ew Uw].
      change (dquote :: canon ++ [dquote]) with ([dquote] ++ canon ++ [dquote]).
      rewrite <- !app_assoc, !unquote_app, Uc. change (unquote [dquote]) with (@nil char).
      simpl app. rewrite map_app, IH, Ec, <- Ew, <- Uw at 1.
      rewrite <- map_app, <- unquote_app.
      change (skipn m t) with (skipn (S m) (c :: t)).
      now rewrite firstn_skipn.
    + specialize (IH 0). cbn [skipn] in IH. unfold unquote in *. simpl.
      destruct (negb (c =? dquote)%N); simpl; now rewrite IH.
Qed.

Section FixesChange.
Context `{UnicodeDB}.

Lemma fold_fix_fold fxs :
  Forall (fun fx => forallb ascii_letter (py (fst fx)) = true
                    /\ py (fst fx) <> []
                    /\ spells (py (fst fx)) (py (snd fx)) = true) fxs ->
  forall s,
  map case_fold (unquote (fold_left fix_step fxs s)) = map case_fold (unquote s).
Proof.
  induction 1 as [|fx fxs (Hk & Hne & Hc) _ IH]; intros s; [reflexivity|].
  simpl. rewrite IH, fix_step_subst.
  apply (@subst_i_fold (py (fst fx)) (py (snd fx)) Hk Hne Hc s 0).
Qed.

End FixesChange.

(** X12.  The fixes change a text in its double quotes and in the case of
    its letters only: without the double quotes and with the case folded,
    the text after the fixes is the text before them. *)
Theorem apply_fixes_letters `{UnicodeDB} (sql : pystr) :
  map case_fold (unquote (apply_fixes sql)) = map case_fold (unquote sql).
Proof.
  apply fold_fix_fold. unfold fixes.
  repeat (apply Forall_cons;
          [split; [reflexivity|split; [discriminate|reflexivity]]|]).
  apply Forall_nil.
Qed.
